(** * Forced, damped pendulum: the simulation script [scriptProblem2.py]

    The script integrates the pendulum equation with SciPy's [odeint] on a
    uniform time grid, wraps the angle with [np.mod], takes a stroboscopic
    (Poincare) sample of the trajectory and sweeps the forcing amplitude for
    a bifurcation diagram.

    The embedding is written once, over an interface [Scalar] of the
    arithmetic the script uses, and is read in two ways:
    - [R_scalar]: exact real arithmetic (no rounding, no overflow), for the
      laws that are stated for every input;
    - [Binary64]: IEEE-754 binary64 as NumPy computes, on Rocq's primitive
      floats, for evaluation at concrete inputs ([np.sin] and [np.cos] come
      from the C library and stay a parameter, [Libm]).

    NumPy, SciPy and the C library are not part of the repository: [np_mod],
    [np_arange], [np_linspace] and fancy indexing follow NumPy's documented
    algorithms, and the ODE solver behind [odeint] is an [Integrator] the
    development is parametric in.

    The other scripts of the repository (circular orbits and Kepler's third
    law, payload trajectories, escape velocities, interference of circular
    waves) are embedded in the modules [Orbits], [Payload], [Escape] and
    [Waves] and are read in exact arithmetic; their calls of [solve_ivp],
    [np.polyfit] and the plotting are outside the embedding. *)

From Stdlib Require Import String ZArith List Bool Lia Reals Lra Floats.
From Stdlib Require Import Permutation.
Import ListNotations.

Set Implicit Arguments.

(** ** Python outcomes: a value is returned or an exception is raised *)

Inductive exn : Type :=
| ValueError
| OverflowError
| ZeroDivisionError
| IndexError.

Inductive py (X : Type) : Type :=
| Return (x : X)
| Raise (e : exn).

Arguments Return {X} x.
Arguments Raise {X} e.

Definition bind {X Y : Type} (c : py X) (k : X -> py Y) : py Y :=
  match c with
  | Return x => k x
  | Raise e => Raise e
  end.

Notation "x <- c ;; k" := (bind c (fun x => k))
  (at level 61, c at next level, right associativity).
Notation "' p <- c ;; k" := (bind c (fun x => let p := x in k))
  (at level 61, p pattern, c at next level, right associativity).

Fixpoint mapM {X Y : Type} (f : X -> py Y) (xs : list X) : py (list Y) :=
  match xs with
  | [] => Return []
  | x :: rest =>
      y <- f x ;;
      ys <- mapM f rest ;;
      Return (y :: ys)
  end.

(** A [for] loop over a list that threads an accumulator and stops at the
    first exception. *)
Fixpoint for_each {X S : Type} (body : S -> X -> py S) (xs : list X) (s : S)
  : py S :=
  match xs with
  | [] => Return s
  | x :: rest => s' <- body s x ;; for_each body rest s'
  end.

(** ** The arithmetic interface *)

Class Scalar (A : Type) : Type := {
  (** conversion of a Python [int] operand *)
  of_int : Z -> A;
  (** a decimal literal: [of_decimal 98 1] is the literal [9.8] *)
  of_decimal : Z -> nat -> A;
  fadd : A -> A -> A;
  fsub : A -> A -> A;
  fmul : A -> A -> A;
  fdiv : A -> A -> A;
  fneg : A -> A;
  np_sqrt : A -> A;
  np_pi : A;
  (** C's [fmod]: the remainder of the division truncated towards zero *)
  fmod : A -> A -> A;
  (** C's [isless] *)
  isless : A -> A -> bool;
  (** the truth value of a C double: [x != 0] *)
  is_nonzero : A -> bool;
  (** C's [copysign(0, b)] *)
  copysign_zero : A -> A;
  (** C's [signbit] *)
  signbit : A -> bool;
  (** [ceil] followed by the conversion to the index type: [ValueError]
      ("cannot compute length") for a NaN, [OverflowError] out of the
      type's range *)
  ceil_intp : A -> py Z
}.

(** [np.sin] and [np.cos], which NumPy takes from the C library. *)
Class Libm (A : Type) : Type := {
  np_sin : A -> A;
  np_cos : A -> A
}.

Declare Scope num_scope.
Delimit Scope num_scope with num.
Notation "x + y" := (fadd x y) : num_scope.
Notation "x - y" := (fsub x y) : num_scope.
Notation "x * y" := (fmul x y) : num_scope.
Notation "x / y" := (fdiv x y) : num_scope.
Notation "- x" := (fneg x) : num_scope.

(** ** NumPy *)

Section NumPy.
Context {A : Type} {SA : Scalar A}.
Local Open Scope num_scope.

(** [np.mod] on floats (NumPy's [npy_divmod]): the result of [fmod], moved
    by one divisor when its sign differs from the divisor's. *)
Definition np_mod (a b : A) : A :=
  let md := fmod a b in
  if negb (is_nonzero b) then md
  else if is_nonzero md then
         if xorb (isless b (of_int 0)) (isless md (of_int 0))
         then md + b
         else md
       else copysign_zero b.

(** The [i]-th element of [np.arange]: the first two are stored as they
    are, the rest is filled as [start + i * delta]. *)
Definition arange_item (start next delta : A) (i : nat) : A :=
  match i with
  | O => start
  | S O => next
  | _ => start + of_int (Z.of_nat i) * delta
  end.

(** The length of [np.arange(start, stop, step)] (NumPy's [_calc_length]):
    [ceil((stop - start) / step)]; when the quotient is zero for a non-empty
    interval (an infinite step, or underflow), one element in the direction
    of the step and none against it. *)
Definition arange_length (start stop step : A) : py Z :=
  let next := stop - start in
  let val := next / step in
  if negb (is_nonzero val) && is_nonzero next
  then Return (if signbit val then 0 else 1)%Z
  else ceil_intp val.

(** [np.arange(start, stop, step)] on floats.  An [OverflowError] of the
    length is reported as [ValueError] ("Maximum allowed size exceeded"). *)
Definition np_arange (start stop step : A) : py (list A) :=
  match arange_length start stop step with
  | Return len =>
      if (len <=? 0)%Z then Return []
      else
        let next := start + step in
        let delta := next - start in
        Return (map (arange_item start next delta) (seq 0 (Z.to_nat len)))
  | Raise OverflowError => Raise ValueError
  | Raise e => Raise e
  end.

End NumPy.

(** [ceil(a / b)] on integers. *)
Definition ceil_div (a b : Z) : Z := (- ((- a) / b))%Z.

(** [np.arange(start, stop, step)] on integers (exact below 2^53, where the
    division NumPy does in floating point has the same ceiling). *)
Definition np_arange_int (start stop step : Z) : py (list Z) :=
  if (step =? 0)%Z then Raise ZeroDivisionError
  else
    let len := ceil_div (stop - start) step in
    Return (map (fun i => (start + Z.of_nat i * step)%Z)
                (seq 0 (Z.to_nat len))).

(** [xs[i]]: a negative index counts from the end, an index out of range
    raises [IndexError]. *)
Definition getitem {X : Type} (xs : list X) (i : Z) : py X :=
  let n := Z.of_nat (length xs) in
  let j := if (i <? 0)%Z then (i + n)%Z else i in
  if ((0 <=? j) && (j <? n))%Z then
    match nth_error xs (Z.to_nat j) with
    | Some x => Return x
    | None => Raise IndexError
    end
  else Raise IndexError.

(** [xs[idx]] for an index array [idx]. *)
Definition take {X : Type} (xs : list X) (idx : list Z) : py (list X) :=
  mapM (getitem xs) idx.

(** ** SciPy's [odeint] *)

(** The solver behind [odeint] (LSODA): a workspace is set up from the
    initial state and the first time, and is advanced to each further
    requested time in turn.  What the solver does inside a step, and what
    it reports after it failed to converge, is the workspace's business. *)
Record Integrator (A : Type) : Type := {
  workspace : Type;
  lsoda_start : (A * A -> A -> A * A) -> A * A -> A -> workspace;
  lsoda_advance : (A * A -> A -> A * A) -> workspace -> A -> workspace;
  lsoda_y : workspace -> A * A
}.

Section Odeint.
Context {A : Type} (I : Integrator A).

Fixpoint odeint_loop (func : A * A -> A -> A * A) (w : workspace I)
  (touts : list A) : list (A * A) :=
  match touts with
  | [] => []
  | tout :: rest =>
      let w' := lsoda_advance I func w tout in
      lsoda_y I w' :: odeint_loop func w' rest
  end.

(** [odeint(func, y0, t)]: one row per requested time, the first row being
    [y0]; no row for an empty [t]. *)
Definition odeint (func : A * A -> A -> A * A) (y0 : A * A) (t : list A)
  : list (A * A) :=
  match t with
  | [] => []
  | t0 :: touts => y0 :: odeint_loop func (lsoda_start I func y0 t0) touts
  end.

End Odeint.

(** ** The script *)

Section Script.
Context {A : Type} {SA : Scalar A} {LA : Libm A} (I : Integrator A).
Local Open Scope num_scope.

(** *** Parameters (module level) *)

Definition g : A := of_decimal 98 1.
Definition l : A := of_decimal 10 1.
Definition m : A := of_decimal 10 1.
Definition omega_0 : A := np_sqrt (g / l).
Definition zeta : A := of_decimal 1 1.
Definition b : A := of_int 2 * m * zeta * omega_0.
Definition omega_d : A := omega_0.
Definition T : A := of_int 2 * np_pi / omega_d.

(** *** ODE system *)

(** The divisions are the arithmetic's own: Python's [ZeroDivisionError]
    for a zero [l] or [m * l] is not part of the embedding. *)
Definition pendulum_deriv (state : A * A) (t b m g l F0 omega_d : A)
  : A * A :=
  let '(theta, theta_dot) := state in
  let dtheta_dt := theta_dot in
  let dtheta_dot_dt :=
    - b / m * theta_dot - g / l * np_sin theta
    + F0 / (m * l) * np_cos (omega_d * t) in
  (dtheta_dt, dtheta_dot_dt).

(** *** Simulation *)

(** Line 32 on one element: [np.mod(theta + np.pi, 2 * np.pi) - np.pi]. *)
Definition wrap_angle (theta : A) : A :=
  np_mod (theta + np_pi) (of_int 2 * np_pi) - np_pi.

Definition simulate (F0 t_max points_per_period : A)
  : py (list A * list A * list A * list A) :=
  let dt := T / points_per_period in
  t <- np_arange (of_int 0) (t_max * T) dt ;;
  let state0 := (of_int 0, of_int 0) in
  let sol :=
    odeint I (fun y s => pendulum_deriv y s b m g l F0 omega_d) state0 t in
  let theta := map fst sol in
  let theta_dot := map snd sol in
  let theta_mod := map wrap_angle theta in
  Return (t, theta, theta_dot, theta_mod).

(** *** Plotting: what [plot_results] hands to the three plots *)

Definition plot_results (F0 : A)
  : py ((list A * list A) * (list A * list A) * (list A * list A)) :=
  ' (t, theta, theta_dot, theta_mod) <- simulate F0 (of_int 100) (of_int 100) ;;
  let series := (firstn 1000 t, firstn 1000 theta) in
  let phase := (theta_mod, theta_dot) in
  poincare_idx <- np_arange_int 100 (Z.of_nat (length t)) 100 ;;
  xs <- take theta_mod poincare_idx ;;
  ys <- take theta_dot poincare_idx ;;
  Return (series, phase, (xs, ys)).

(** *** Bifurcation diagram: the two lists handed to the plot *)

Definition bifurcation_step (acc : list A * list A) (F0 : A)
  : py (list A * list A) :=
  let '(theta_poincare, F0_vals) := acc in
  ' (t, _, theta_dot, theta_mod) <- simulate F0 (of_int 200) (of_int 100) ;;
  poincare_idx <- np_arange_int (100 * 100) (200 * 100) 100 ;;
  sel <- take theta_mod poincare_idx ;;
  Return (theta_poincare ++ sel, F0_vals ++ repeat F0 (length poincare_idx)).

Definition bifurcation_diagram (F0_range : list A) : py (list A * list A) :=
  ' (theta_poincare, F0_vals) <- for_each bifurcation_step F0_range ([], []) ;;
  Return (F0_vals, theta_poincare).

(** The default range, [np.arange(0, 20.1, 0.2)]. *)
Definition F0_range_default : py (list A) :=
  np_arange (of_int 0) (of_decimal 201 1) (of_decimal 2 1).

(** *** Run: the data of the three figures, in the order the script makes
    them (the default range is evaluated when [bifurcation_diagram] is
    defined) *)

Definition script :=
  F0_range <- F0_range_default ;;
  small <- plot_results (of_int 1) ;;
  chaotic <- plot_results (of_int 15) ;;
  bifurcation <- bifurcation_diagram F0_range ;;
  Return (small, chaotic, bifurcation).

End Script.

(** ** First reading: exact real arithmetic *)

Definition Rtrunc (x : R) : Z :=
  if Rle_dec 0 x then Zfloor x else Zceil x.

Definition Rfmod (a c : R) : R := (a - IZR (Rtrunc (a / c)) * c)%R.

Definition Rless (x y : R) : bool := if Rlt_dec x y then true else false.

Definition Rnonzero (x : R) : bool := if Req_dec_T x 0 then false else true.

#[export] Instance R_scalar : Scalar R := {|
  of_int := IZR;
  of_decimal := fun d k => (IZR d / 10 ^ k)%R;
  fadd := Rplus;
  fsub := Rminus;
  fmul := Rmult;
  fdiv := Rdiv;
  fneg := Ropp;
  np_sqrt := R_sqrt.sqrt;
  np_pi := PI;
  fmod := Rfmod;
  isless := Rless;
  is_nonzero := Rnonzero;
  copysign_zero := fun _ => 0%R;
  signbit := fun x => Rless x 0;
  ceil_intp := fun x => Return (Zceil x)
|}.

#[export] Instance R_libm : Libm R := {|
  np_sin := sin;
  np_cos := cos
|}.

(** ** Second reading: IEEE-754 binary64 *)

(** An integer as the nearest double (exact below 2^53). *)
Definition b64_of_Z (z : Z) : float :=
  SF2Prim (binary_normalize prec emax z 0 false).

(** C's [fmod] on doubles; the remainder is a double, so no rounding takes
    place. *)
Definition b64_fmod (x y : float) : float :=
  match Prim2SF x, Prim2SF y with
  | S754_nan, _ | _, S754_nan => nan
  | S754_infinity _, _ => nan
  | _, S754_zero _ => nan
  | S754_zero _, _ => x
  | S754_finite _ _ _, S754_infinity _ => x
  | S754_finite sx mx ex, S754_finite _ my ey =>
      let e := Z.min ex ey in
      let r := ((Z.pos mx * 2 ^ (ex - e)) mod (Z.pos my * 2 ^ (ey - e)))%Z in
      SF2Prim (binary_normalize prec emax (if sx then - r else r)%Z e sx)
  end.

Definition b64_signbit (x : float) : bool :=
  match Prim2SF x with
  | S754_zero s | S754_infinity s | S754_finite s _ _ => s
  | S754_nan => false
  end.

Definition b64_copysign_zero (y : float) : float :=
  if b64_signbit y then neg_zero else zero.

(** [ceil] of a double as an integer of the index type (64-bit signed).
    The range check compares with the bounds of the type as doubles, so it
    lets [2^63] (the double nearest to the largest index) through; the
    conversion of that value gives the smallest index (x86-64). *)
Definition b64_ceil_intp (x : float) : py Z :=
  match Prim2SF x with
  | S754_zero _ => Return 0%Z
  | S754_finite s mx e =>
      let n := (if s then Z.neg mx else Z.pos mx) in
      let z := (if 0 <=? e then n * 2 ^ e else ceil_div n (2 ^ (- e)))%Z in
      if ((- 2 ^ 63 <=? z) && (z <=? 2 ^ 63))%Z
      then Return (if z =? 2 ^ 63 then - 2 ^ 63 else z)%Z
      else Raise OverflowError
  | S754_infinity _ => Raise OverflowError
  | S754_nan => Raise ValueError
  end.

(** A decimal literal is the quotient of two integers that are doubles, so
    the division rounds it correctly, as Python's parser does. *)
#[export] Instance Binary64 : Scalar float := {|
  of_int := b64_of_Z;
  of_decimal := fun d k => PrimFloat.div (b64_of_Z d) (b64_of_Z (10 ^ Z.of_nat k));
  fadd := PrimFloat.add;
  fsub := PrimFloat.sub;
  fmul := PrimFloat.mul;
  fdiv := PrimFloat.div;
  fneg := PrimFloat.opp;
  np_sqrt := PrimFloat.sqrt;
  np_pi := 0x1.921fb54442d18p+1%float;
  fmod := b64_fmod;
  isless := PrimFloat.ltb;
  is_nonzero := fun x => negb (PrimFloat.eqb x zero);
  copysign_zero := b64_copysign_zero;
  signbit := b64_signbit;
  ceil_intp := b64_ceil_intp
|}.

(** ** Instances to run the script with *)

(** The explicit Euler method as an [Integrator]: one step per requested
    time. *)
Definition euler {A : Type} {SA : Scalar A} : Integrator A := {|
  workspace := (A * A) * A;
  lsoda_start := fun _ y0 t0 => (y0, t0);
  lsoda_advance := fun func w tout =>
    let '(y, t) := w in
    let d := func y t in
    let h := fsub tout t in
    ((fadd (fst y) (fmul h (fst d)), fadd (snd y) (fmul h (snd d))), tout);
  lsoda_y := fst
|}.

(** Taylor polynomials in place of the C library's [sin] and [cos]. *)
Definition taylor_libm : Libm float := {|
  np_sin := fun x => (x - x * x * x / 6 + x * x * x * x * x / 120)%float;
  np_cos := fun x => (1 - x * x / 2 + x * x * x * x / 24)%float
|}.

(** ** Reading a result *)

(** [c] returns and its value satisfies [P]. *)
Definition returns {X : Type} (c : py X) (P : X -> Prop) : Prop :=
  match c with
  | Return x => P x
  | Raise _ => False
  end.

(** If [c] returns, its value satisfies [P]. *)
Definition on_return {X : Type} (c : py X) (P : X -> Prop) : Prop :=
  match c with
  | Return x => P x
  | Raise _ => True
  end.

(** Python's [len(range(start, stop, step))] for a positive step, as the
    language reference defines it. *)
Definition py_range_len (start stop step : Z) : Z :=
  if (start <? stop)%Z then ((stop - start - 1) / step + 1)%Z else 0%Z.

(** The elements of [xs] at the indices [offset], [offset + P],
    [offset + 2 P], ... below [len(xs)], in that order. *)
Definition strobe {X : Type} (xs : list X) (d : X) (offset P : Z) : list X :=
  map (fun k => nth (Z.to_nat (offset + Z.of_nat k * P)) xs d)
      (seq 0 (Z.to_nat (py_range_len offset (Z.of_nat (length xs)) P))).

(** The raw trajectory [simulate] gets from [odeint] on the grid [t]. *)
Definition solution {A : Type} {SA : Scalar A} {LA : Libm A}
  (I : Integrator A)
  (F0 : A) (t : list A) : list (A * A) :=
  odeint I (fun y s => pendulum_deriv y s b m g l F0 omega_d)
         (of_int 0, of_int 0) t.

(** The normalized angles of a run, [[]] when it raised. *)
Definition theta_mod_of {A : Type}
  (c : py (list A * list A * list A * list A)) : list A :=
  match c with
  | Return (_, _, _, theta_mod) => theta_mod
  | Raise _ => []
  end.

(** The stroboscopic samples the sweep keeps for one amplitude: the
    normalized angle at the start of each of the periods 100 .. 199 of a run
    of 200 periods. *)
Definition steady_state {A : Type} {SA : Scalar A} {LA : Libm A}
  (I : Integrator A)
  (F0 : A) : list A :=
  map (fun j => nth (Z.to_nat (100 * 100 + Z.of_nat j * 100))
                  (theta_mod_of (simulate I F0 (of_int 200) (of_int 100)))
                  (of_int 0))
      (seq 0 100).

(** The indices the sweep uses are indices of the normalized angles of the
    run [c], so that indexing with them raises nothing and selects 100
    elements. *)
Definition sweep_indices_fit {A : Type}
  (c : py (list A * list A * list A * list A)) : Prop :=
  returns c
    (fun '(_, _, _, theta_mod) =>
       returns (np_arange_int (100 * 100) (200 * 100) 100)
         (fun poincare_idx =>
            Forall (fun i => (0 <= i < Z.of_nat (length theta_mod))%Z)
                   poincare_idx /\
            returns (take theta_mod poincare_idx)
                    (fun sel => length sel = 100%nat))).

(** The dataset of the sweep over [F0_range]: for each amplitude, in the
    order of the range, 100 copies of the amplitude beside the 100 samples
    kept from its run of 200 periods, which are the normalized angles at the
    indices [100 * 100 + 100 j], [j < 100]. *)
Definition sweep_groups {A : Type} {SA : Scalar A} {LA : Libm A}
  (I : Integrator A) (F0_range : list A) : Prop :=
  bifurcation_diagram I F0_range =
    Return (flat_map (fun F0 => repeat F0 100) F0_range,
            flat_map (steady_state I) F0_range) /\
  forall F0,
    length (steady_state I F0) = 100%nat /\
    returns (simulate I F0 (of_int 200) (of_int 100))
      (fun '(_, _, _, theta_mod) =>
         forall j, (j < 100)%nat ->
           nth_error (steady_state I F0) j =
           nth_error theta_mod (Z.to_nat (100 * 100 + Z.of_nat j * 100))).

(** Unfolds the operations of [R_scalar] and nothing else. *)
Ltac exact_arith :=
  cbn [fadd fsub fmul fdiv fneg of_int of_decimal np_pi np_sqrt fmod isless
       is_nonzero copysign_zero signbit ceil_intp np_sin np_cos
       R_scalar R_libm].

(** ** Mechanical energy *)

(** The energy of the pendulum per unit mass: kinetic plus potential. *)
Definition energy (l g theta theta_dot : R) : R :=
  (1 / 2 * l ^ 2 * theta_dot ^ 2 + g * l * (1 - cos theta))%R.

(** * The other scripts *)

(** Python's [**] with an integer exponent.  On doubles NumPy takes it from
    the C library's [pow]; the development reads it in exact arithmetic
    only. *)
Class Power (A : Type) : Type := {
  fpow : A -> Z -> A
}.

Section NumPyLinspace.
Context {A : Type} {SA : Scalar A}.
Local Open Scope num_scope.

(** [np.linspace(start, stop, num, endpoint=...)]: [arange(0, num)] scaled
    by the step and moved to [start]; with [endpoint] the last element is
    set to [stop]. *)
Definition np_linspace (start stop : A) (num : Z) (endpoint : bool)
  : py (list A) :=
  if (num <? 0)%Z then Raise ValueError
  else
    let div := (if endpoint then num - 1 else num)%Z in
    let delta := stop - start in
    let y := map (fun i => of_int (Z.of_nat i)) (seq 0 (Z.to_nat num)) in
    let y :=
      if (0 <? div)%Z then
        let step := delta / of_int div in
        if is_nonzero step then map (fun v => v * step) y
        else map (fun v => v / of_int div * delta) y
      else map (fun v => v * delta) y in
    let y := map (fun v => v + start) y in
    Return (if endpoint && (1 <? num)%Z then removelast y ++ [stop] else y).

End NumPyLinspace.

(** ** Circular orbits and Kepler's third law ([Problem1GraphsAndScripts])

    [solve_ivp], the detection of the events and the fit are outside the
    embedding. *)

Module Orbits.
Section Script.
Context {A : Type} {SA : Scalar A} {PA : Power A}.
Local Open Scope num_scope.

(** Gravitational parameters (normalized units) and orbital radii. *)
Definition G : A := of_decimal 10 1.
Definition M : A := of_decimal 10 1.

Definition r_values : list A :=
  [of_decimal 10 1; of_decimal 20 1; of_decimal 30 1; of_decimal 40 1;
   of_decimal 50 1].

(** The right-hand side handed to [solve_ivp]. *)
Definition orbital_motion (t : A) (state : A * A * A * A) (G M : A)
  : A * A * A * A :=
  let '(x, y, vx, vy) := state in
  let r := np_sqrt (fpow x 2 + fpow y 2) in
  let ax := - (G * M / fpow r 3) * x in
  let ay := - (G * M / fpow r 3) * y in
  (vx, vy, ax, ay).

(** The event function: [y = 0]; its attributes ask for the crossings from
    negative to positive. *)
Definition event_full_orbit (t : A) (state : A * A * A * A) : A :=
  let '(_, y, _, _) := state in y.

(** The initial state of the loop for the radius [r]: on the x axis, with
    the velocity of the circular orbit. *)
Definition state0 (r : A) : A * A * A * A :=
  let v := np_sqrt (G * M / r) in
  (r, of_decimal 0 1, of_decimal 0 1, v).

Definition theoretical_slope : A := of_int 4 * fpow np_pi 2.

End Script.
End Orbits.

(** ** Payload trajectories near Earth ([Problem3GraphsAndScripts]) *)

Module Payload.
Section Script.
Context {A : Type} {SA : Scalar A} {PA : Power A}.
Local Open Scope num_scope.

(** [G = 6.67430e-11], [M = 5.972e24], [R = 6371e3]. *)
Definition G : A := of_decimal 667430 16.
Definition M : A := of_int 5972000000000000000000000.
Definition R : A := of_int 6371000.

(** The right-hand side handed to [solve_ivp]. *)
Definition equations (t : A) (state : A * A * A * A) : A * A * A * A :=
  let '(x, y, vx, vy) := state in
  let r := np_sqrt (fpow x 2 + fpow y 2) in
  let ax := - G * M * x / fpow r 3 in
  let ay := - G * M * y / fpow r 3 in
  (vx, vy, ax, ay).

End Script.
End Payload.

(** ** Escape velocities ([Problem2GraphsAndScripts]) *)

Module Escape.
Section Script.
Context {A : Type} {SA : Scalar A}.
Local Open Scope num_scope.

(** Mass in kg and radius in m: [(5.97e24, 6.371e6)], [(6.42e23, 3.389e6)],
    [(1.898e27, 6.9911e7)].  A dict keeps the order of insertion. *)
Definition planets : list (string * (A * A)) :=
  [("Earth"%string, (of_int 5970000000000000000000000, of_int 6371000));
   ("Mars"%string, (of_int 642000000000000000000000, of_int 3389000));
   ("Jupiter"%string, (of_int 1898000000000000000000000000, of_int 69911000))].

Definition G : A := of_decimal 667430 16.

(** The dict comprehension of [velocities] over the items of a dict, in
    their order: the escape velocity in km/s. *)
Definition velocities_of (planets : list (string * (A * A)))
  : list (string * A) :=
  map (fun item =>
         let '(planet, (mass, radius)) := item in
         (planet, np_sqrt (of_int 2 * G * mass / radius) / of_int 1000))
      planets.

Definition velocities : list (string * A) := velocities_of planets.

End Script.
End Escape.

(** ** Interference of circular waves ([3 Waves]) *)

Module Waves.
Section Script.
Context {F : Type} {SA : Scalar F} {LA : Libm F} {PA : Power F}.
Local Open Scope num_scope.

(** Wave parameters. *)
Definition A : F := of_int 1.
Definition lambda_ : F := of_int 5.
Definition k : F := of_int 2 * np_pi / lambda_.
Definition f : F := of_int 1.
Definition omega : F := of_int 2 * np_pi * f.
Definition phi : F := of_int 0.

(** Grid size. *)
Definition x_range : py (list F) :=
  np_linspace (of_int (-10)) (of_int 10) 300 true.
Definition y_range : py (list F) :=
  np_linspace (of_int (-10)) (of_int 10) 300 true.

(** Time variable (static snapshot). *)
Definition t : F := of_int 0.

(** [n] vertices of a regular polygon ([radius] defaults to 5). *)
Definition polygon_vertices (n : Z) (radius : F) : py (list (F * F)) :=
  angles <- np_linspace (of_int 0) (of_int 2 * np_pi) n false ;;
  Return (map (fun a => (radius * np_cos a, radius * np_sin a)) angles).

Definition N_sources : Z := 80.
Definition sources : py (list (F * F)) :=
  polygon_vertices N_sources (of_int 5).

(** The wave displacement from a single point source, at one point
    [(X, Y)] of the grid. *)
Definition wave_from_source (x0 y0 X Y t : F) : F :=
  let r := np_sqrt (fpow (X - x0) 2 + fpow (Y - y0) 2) + of_decimal 1 6 in
  (A / np_sqrt r) * np_cos (k * r - omega * t + phi).

(** One element of [total_wave] after the loop over the sources. *)
Definition total_wave_at (srcs : list (F * F)) (X Y : F) : F :=
  fold_left (fun acc src => acc + wave_from_source (fst src) (snd src) X Y t)
            srcs (of_int 0).

(** [total_wave] on the grid of [np.meshgrid(x_range, y_range)]: the row
    [i] holds the points with [Y = y_range[i]]. *)
Definition total_wave : py (list (list F)) :=
  xs <- x_range ;;
  ys <- y_range ;;
  srcs <- sources ;;
  Return (map (fun Y => map (fun X => total_wave_at srcs X Y) xs) ys).

End Script.
End Waves.

(** ** Exact arithmetic for [**] *)

#[export] Instance R_power : Power R := {| fpow := powerRZ |}.

(** ** Reading a trajectory in the plane *)

(** The curve [c] in the plane, with its velocity, has the derivative [d] at
    the time [s], component by component. *)
Definition derivative4 (c : R -> R * R * R * R) (s : R) (d : R * R * R * R)
  : Prop :=
  derivable_pt_lim (fun u => fst (fst (fst (c u)))) s (fst (fst (fst d))) /\
  derivable_pt_lim (fun u => snd (fst (fst (c u)))) s (snd (fst (fst d))) /\
  derivable_pt_lim (fun u => snd (fst (c u))) s (snd (fst d)) /\
  derivable_pt_lim (fun u => snd (c u)) s (snd d).

(** Angular momentum and energy of a body of unit mass. *)
Definition angular_momentum (state : R * R * R * R) : R :=
  let '(x, y, vx, vy) := state in (x * vy - y * vx)%R.

Definition orbital_energy (G M : R) (state : R * R * R * R) : R :=
  let '(x, y, vx, vy) := state in
  (1 / 2 * (vx * vx + vy * vy) - G * M / R_sqrt.sqrt (x * x + y * y))%R.

(** The body on the circle of radius [r] around the origin with the angular
    velocity [w]. *)
Definition circular_orbit (r w : R) (u : R) : R * R * R * R :=
  (r * cos (w * u), r * sin (w * u),
   - (r * w) * sin (w * u), (r * w) * cos (w * u))%R.

(** ** Reading the interference pattern *)

(** The sum of a list of reals. *)
Definition Rlist_sum (xs : list R) : R := fold_right Rplus 0%R xs.

(** The index of the mirror image, in the x axis, of the [i]-th of [n]
    vertices. *)
Definition mirror_index (n i : nat) : nat := ((n - i) mod n)%nat.

(** The index of the mirror image in the y axis, for an even [n]. *)
Definition mirror_index_y (n i : nat) : nat := ((n / 2 + n - i) mod n)%nat.

(** The [i]-th vertex [polygon_vertices] returns in exact arithmetic. *)
Definition vertex (n : Z) (radius : R) (i : nat) : R * R :=
  (radius * cos (INR i * (2 * PI / IZR n)),
   radius * sin (INR i * (2 * PI / IZR n)))%R.

(** * Properties *)

(** ** Outcomes *)

Lemma returns_weaken {X : Type} (c : py X) (P Q : X -> Prop) :
  (forall x, P x -> Q x) -> returns c P -> returns c Q.
Proof. destruct c; simpl; auto. Qed.

Lemma returns_inv {X : Type} (c : py X) (P : X -> Prop) :
  returns c P -> exists x, c = Return x /\ P x.
Proof. destruct c; simpl; [eauto | tauto]. Qed.

Lemma mapM_Return {X Y : Type} (f : X -> py Y) (h : X -> Y) (xs : list X) :
  Forall (fun x => f x = Return (h x)) xs -> mapM f xs = Return (map h xs).
Proof.
  induction 1 as [| x rest Hx _ IH]; simpl; [reflexivity |].
  rewrite Hx; simpl. rewrite IH; reflexivity.
Qed.

(** ** Integer ranges and indexing *)

Lemma ceil_div_bounds (a c : Z) :
  (0 < c)%Z -> (c * (ceil_div a c - 1) < a <= c * ceil_div a c)%Z.
Proof.
  intros Hc. unfold ceil_div.
  pose proof (Z.div_mod (- a) c ltac:(lia)) as Hdm.
  pose proof (Z.mod_pos_bound (- a) c Hc) as Hb.
  nia.
Qed.

Lemma ceil_div_unique (a c k : Z) :
  (0 < c)%Z -> (c * (k - 1) < a <= c * k)%Z -> ceil_div a c = k.
Proof.
  intros Hc Hk. pose proof (ceil_div_bounds a Hc) as Hb. nia.
Qed.

(** NumPy's length is Python's [len(range ...)]. *)
Lemma arange_len_is_range_len (start stop step : Z) :
  (0 < step)%Z ->
  Z.max 0 (ceil_div (stop - start) step) = py_range_len start stop step.
Proof.
  intros Hs. unfold py_range_len.
  destruct (Z.ltb_spec start stop) as [Hlt | Hge].
  - rewrite Z.max_r.
    + apply ceil_div_unique; [assumption |].
      pose proof (Z.div_mod (stop - start - 1) step ltac:(lia)) as Hdm.
      pose proof (Z.mod_pos_bound (stop - start - 1) step Hs) as Hb.
      nia.
    + pose proof (ceil_div_bounds (stop - start) Hs). nia.
  - rewrite Z.max_l; [reflexivity |].
    pose proof (ceil_div_bounds (stop - start) Hs). nia.
Qed.

Lemma np_arange_int_items (start stop step : Z) :
  (0 < step)%Z ->
  np_arange_int start stop step =
  Return (map (fun k => (start + Z.of_nat k * step)%Z)
              (seq 0 (Z.to_nat (py_range_len start stop step)))).
Proof.
  intros Hs. unfold np_arange_int.
  destruct (Z.eqb_spec step 0) as [-> | _]; [lia |].
  rewrite <- (arange_len_is_range_len start stop Hs).
  rewrite Z2Nat.inj_max; simpl (Z.to_nat 0). rewrite Nat.max_0_l.
  reflexivity.
Qed.

(** Every index of the range is below [stop]. *)
Lemma range_index_lt_stop (start stop step : Z) (k : nat) :
  (0 < step)%Z ->
  (k < Z.to_nat (py_range_len start stop step))%nat ->
  (start + Z.of_nat k * step < stop)%Z.
Proof.
  intros Hs Hk. unfold py_range_len in Hk.
  destruct (Z.ltb_spec start stop) as [Hlt | Hge]; [| simpl in Hk; lia].
  pose proof (Z.div_mod (stop - start - 1) step ltac:(lia)) as Hdm.
  pose proof (Z.mod_pos_bound (stop - start - 1) step Hs) as Hb.
  assert (0 <= (stop - start - 1) / step)%Z by (apply Z.div_pos; lia).
  nia.
Qed.

Lemma getitem_in_range {X : Type} (xs : list X) (i : Z) (d : X) :
  (0 <= i < Z.of_nat (length xs))%Z ->
  getitem xs i = Return (nth (Z.to_nat i) xs d).
Proof.
  intros Hi. unfold getitem.
  destruct (Z.ltb_spec i 0) as [? | _]; [lia |].
  destruct (Z.leb_spec 0 i) as [_ | ?]; [| lia].
  destruct (Z.ltb_spec i (Z.of_nat (length xs))) as [_ | ?]; [| lia].
  simpl. rewrite (nth_error_nth' xs d) by lia. reflexivity.
Qed.

Lemma take_in_range {X : Type} (xs : list X) (idx : list Z) (d : X) :
  Forall (fun i => (0 <= i < Z.of_nat (length xs))%Z) idx ->
  take xs idx = Return (map (fun i => nth (Z.to_nat i) xs d) idx).
Proof.
  intros Hidx. unfold take. apply mapM_Return.
  eapply Forall_impl; [| exact Hidx].
  intros i Hi. apply getitem_in_range; assumption.
Qed.

(** The elements selected by [xs[np.arange(offset, len(xs), P)]]. *)
Lemma sample_every (X : Type) (xs : list X) (d : X) (offset P : Z) :
  (1 <= P)%Z -> (0 <= offset)%Z ->
  (idx <- np_arange_int offset (Z.of_nat (length xs)) P ;; take xs idx) =
  Return (strobe xs d offset P).
Proof.
  intros HP Hoff. unfold strobe.
  rewrite np_arange_int_items by lia. simpl bind.
  rewrite take_in_range with (d := d).
  - rewrite map_map. reflexivity.
  - apply Forall_forall. intros i Hi.
    apply in_map_iff in Hi. destruct Hi as [k [<- Hk]].
    apply in_seq in Hk.
    pose proof (@range_index_lt_stop offset (Z.of_nat (length xs)) P k) as Hlt.
    split; [nia | apply Hlt; lia].
Qed.

(** ** The integrator's output *)

Section OdeintFacts.
Context {A : Type} (I : Integrator A).

Lemma odeint_loop_length (func : A * A -> A -> A * A) (touts : list A) :
  forall w, length (odeint_loop I func w touts) = length touts.
Proof.
  induction touts as [| tout rest IH]; intros w; simpl; [reflexivity |].
  rewrite IH; reflexivity.
Qed.

Lemma odeint_length (func : A * A -> A -> A * A) (y0 : A * A) (t : list A) :
  length (odeint I func y0 t) = length t.
Proof.
  destruct t as [| t0 touts]; simpl; [reflexivity |].
  rewrite odeint_loop_length; reflexivity.
Qed.

End OdeintFacts.

(** ** The shape of a run, in any arithmetic *)

Section RunFacts.
Context {A : Type} {SA : Scalar A} {LA : Libm A} (I : Integrator A).
Local Open Scope num_scope.

(** Once the grid is built, [simulate] returns the columns of the
    trajectory and the normalized first column. *)
Lemma simulate_on_grid (F0 t_max points_per_period : A) (t : list A) :
  np_arange (of_int 0) (t_max * T) (T / points_per_period) = Return t ->
  simulate I F0 t_max points_per_period =
  Return (t, map fst (solution I F0 t), map snd (solution I F0 t),
          map wrap_angle (map fst (solution I F0 t))).
Proof. intros Ht. unfold simulate. rewrite Ht. reflexivity. Qed.

Lemma simulate_inv (F0 t_max points_per_period : A)
  (t theta theta_dot theta_mod : list A) :
  simulate I F0 t_max points_per_period =
    Return (t, theta, theta_dot, theta_mod) ->
  np_arange (of_int 0) (t_max * T) (T / points_per_period) = Return t /\
  theta = map fst (solution I F0 t) /\
  theta_dot = map snd (solution I F0 t) /\
  theta_mod = map wrap_angle theta.
Proof.
  unfold simulate.
  destruct (np_arange (of_int 0) (t_max * T) (T / points_per_period))
    as [t' | e]; simpl; [| discriminate].
  intros Heq. injection Heq as -> <- <- <-. repeat split; reflexivity.
Qed.

(** [simulate] raises what [np.arange] raises, and nothing else. *)
Lemma simulate_raises (F0 t_max points_per_period : A) (e : exn) :
  simulate I F0 t_max points_per_period = Raise e <->
  np_arange (of_int 0) (t_max * T) (T / points_per_period) = Raise e.
Proof.
  unfold simulate.
  destruct (np_arange (of_int 0) (t_max * T) (T / points_per_period));
    simpl; split; congruence.
Qed.

End RunFacts.

(** ** Exact arithmetic *)

Section Exact.
Local Open Scope R_scope.

Lemma Rless_spec (x y : R) : reflect (x < y) (Rless x y).
Proof. unfold Rless. destruct (Rlt_dec x y); constructor; assumption. Qed.

Lemma Rnonzero_spec (x : R) : reflect (x <> 0) (Rnonzero x).
Proof.
  unfold Rnonzero. destruct (Req_dec_T x 0); constructor; [lra | assumption].
Qed.

(** For a positive divisor [np.mod] is the remainder of the floored
    division. *)
Lemma R_np_mod_floor (a c : R) :
  0 < c -> np_mod a c = a - IZR (Zfloor (a / c)) * c.
Proof.
  intros Hc. unfold np_mod. cbn.
  destruct (Rnonzero_spec c) as [_ | Hz]; [cbn | lra].
  unfold Rfmod, Rtrunc.
  set (q := a / c).
  assert (Ha : a = q * c) by (unfold q; field; lra).
  pose proof (Zfloor_bound q) as Hfl.
  destruct (Rless_spec c 0) as [? | _]; [lra |].
  destruct (Rle_dec 0 q) as [Hq | Hq].
  - destruct (Rnonzero_spec (a - IZR (Zfloor q) * c)) as [Hmd | Hmd].
    + destruct (Rless_spec (a - IZR (Zfloor q) * c) 0) as [Hneg | _];
        [| reflexivity].
      exfalso. rewrite Ha in Hneg. nra.
    + lra.
  - pose proof (Zceil_bound q) as Hce.
    destruct (Rnonzero_spec (a - IZR (Zceil q) * c)) as [Hmd | Hmd].
    + assert (Hlt : q < IZR (Zceil q)).
      { destruct (proj2 Hce) as [? | Heq]; [assumption |].
        exfalso. apply Hmd. rewrite Ha at 1. rewrite <- Heq. ring. }
      assert (Hfc : Zfloor q = (Zceil q - 1)%Z).
      { apply Zfloor_eq. rewrite minus_IZR. lra. }
      destruct (Rless_spec (a - IZR (Zceil q) * c) 0) as [_ | Hpos].
      * cbn. rewrite Hfc, minus_IZR. ring.
      * exfalso. apply Hpos. rewrite Ha at 1. nra.
    + assert (Heq : q = IZR (Zceil q)) by nra.
      assert (Hfc : Zfloor q = Zceil q) by (rewrite Heq at 1; apply ZfloorZ).
      rewrite Hfc. lra.
Qed.

Lemma R_np_mod_range (a c : R) : 0 < c -> 0 <= np_mod a c < c.
Proof.
  intros Hc. rewrite R_np_mod_floor by assumption.
  pose proof (Zfloor_bound (a / c)) as Hfl.
  assert (Ha : a = a / c * c) by (field; lra).
  split.
  - rewrite Ha at 1. nra.
  - rewrite Ha at 1. nra.
Qed.

Lemma R_np_mod_small (a c : R) : 0 <= a < c -> np_mod a c = a.
Proof.
  intros [Ha Hac]. rewrite R_np_mod_floor by lra.
  replace (Zfloor (a / c)) with 0%Z; [lra |].
  symmetry. apply Zfloor_eq. split.
  - apply Rmult_le_pos; [lra |]. left. apply Rinv_0_lt_compat. lra.
  - apply Rmult_lt_reg_r with c; [lra |].
    unfold Rdiv. rewrite Rmult_assoc, Rinv_l by lra. lra.
Qed.

Lemma R_two_pi_pos : 0 < IZR 2 * PI.
Proof. pose proof PI_RGT_0. lra. Qed.

Lemma R_wrap_angle_range (theta : R) : - PI <= wrap_angle theta < PI.
Proof.
  unfold wrap_angle. cbn.
  pose proof (R_np_mod_range (theta + PI) R_two_pi_pos) as Hr.
  cbn in Hr. lra.
Qed.

Lemma R_wrap_angle_fixed (x : R) : - PI <= x < PI -> wrap_angle x = x.
Proof.
  intros Hx. unfold wrap_angle. cbn.
  pose proof (@R_np_mod_small (x + PI) (IZR 2 * PI)) as Hs.
  cbn in Hs. rewrite Hs; lra.
Qed.

Lemma R_wrap_angle_idempotent (theta : R) :
  wrap_angle (wrap_angle theta) = wrap_angle theta.
Proof. apply R_wrap_angle_fixed, R_wrap_angle_range. Qed.


End Exact.

(** *** The time grid *)

Section ExactGrid.
Local Open Scope R_scope.

Lemma R_omega_d_pos : 0 < omega_d (A := R).
Proof.
  unfold omega_d, omega_0, g, l. cbn.
  apply sqrt_lt_R0. repeat apply Rdiv_lt_0_compat; lra.
Qed.

Lemma R_T_pos : 0 < T (A := R).
Proof.
  unfold T. exact_arith. pose proof R_omega_d_pos. pose proof PI_RGT_0.
  apply Rdiv_lt_0_compat; lra.
Qed.

(** The length of a range with a step other than 0. *)
Lemma R_arange_length (start stop step : R) :
  step <> 0 ->
  arange_length start stop step = Return (Zceil ((stop - start) / step)).
Proof.
  intros Hstep. unfold arange_length. exact_arith.
  destruct (Rnonzero_spec ((stop - start) / step)) as [_ | Hq];
    [reflexivity |].
  destruct (Rnonzero_spec (stop - start)) as [Hn | _]; [| reflexivity].
  exfalso. apply Hq. unfold Rdiv.
  apply Rmult_integral_contrapositive_currified;
    [exact Hn | apply Rinv_neq_0_compat; exact Hstep].
Qed.

(** [np.arange(0, stop, step)]: the multiples of [step], [ceil(stop / step)]
    of them. *)
Lemma R_arange_from_zero (stop step : R) :
  step <> 0 ->
  np_arange (of_int 0) stop step =
  Return (map (fun i => INR i * step) (seq 0 (Z.to_nat (Zceil (stop / step))))).
Proof.
  intros Hstep. unfold np_arange. rewrite R_arange_length by exact Hstep.
  exact_arith.
  replace (stop - 0) with stop by ring.
  destruct (Z.leb_spec (Zceil (stop / step)) 0) as [Hle | Hgt].
  - replace (Z.to_nat (Zceil (stop / step))) with 0%nat by lia. reflexivity.
  - f_equal. apply map_ext. intros [| [| i]]; unfold arange_item; exact_arith.
    + cbn [INR]. ring.
    + cbn [INR]. ring.
    + rewrite <- INR_IZR_INZ. ring.
Qed.

(** The grid of [simulate], for [points_per_period] other than 0. *)
Lemma R_grid (t_max P : R) :
  P <> 0 ->
  np_arange (of_int 0) (fmul t_max T) (fdiv T P) =
  Return (map (fun i => INR i * (T / P))
              (seq 0 (Z.to_nat (Zceil (t_max * P))))).
Proof.
  intros HP. pose proof R_T_pos as HT.
  rewrite R_arange_from_zero.
  - exact_arith.
    replace (t_max * T / (T / P)) with (t_max * P); [reflexivity |].
    field. split; lra.
  - exact_arith. unfold Rdiv.
    apply Rmult_integral_contrapositive_currified;
      [lra | apply Rinv_neq_0_compat; exact HP].
Qed.

End ExactGrid.

(** *** Runs in exact arithmetic *)

Section ExactRuns.
Variable I : Integrator R.
Local Open Scope R_scope.

Lemma nth_map_seq {X : Type} (f : nat -> X) (n i : nat) (d : X) :
  (i < n)%nat -> nth i (map f (seq 0 n)) d = f i.
Proof.
  intros Hi.
  rewrite nth_indep with (d' := f 0%nat) by (rewrite length_map, length_seq; lia).
  rewrite map_nth, seq_nth by lia. reflexivity.
Qed.

(** [simulate] returns for every [points_per_period] other than 0: the grid
    has [ceil(t_max * points_per_period)] points. *)
Lemma R_simulate (F0 t_max P : R) :
  P <> 0 ->
  let t := map (fun i => INR i * (T / P))
               (seq 0 (Z.to_nat (Zceil (t_max * P)))) in
  simulate I F0 t_max P =
  Return (t, map fst (solution I F0 t), map snd (solution I F0 t),
          map wrap_angle (map fst (solution I F0 t))).
Proof. intros HP t. apply simulate_on_grid, R_grid. exact HP. Qed.

End ExactRuns.

(** ** Lengths, in any arithmetic *)

Section Lengths.
Context {A : Type} {SA : Scalar A} {LA : Libm A} (I : Integrator A).

Lemma np_arange_length (start stop step : A) (len : Z) :
  arange_length start stop step = Return len ->
  returns (np_arange start stop step) (fun t => length t = Z.to_nat len).
Proof.
  intros Hlen. unfold np_arange. rewrite Hlen.
  destruct (Z.leb_spec len 0) as [Hle | Hgt]; cbn [returns].
  - cbn [length]. lia.
  - rewrite length_map, length_seq. reflexivity.
Qed.

(** The elements of a non-empty range. *)
Lemma np_arange_items (start stop step : A) (len : Z) :
  arange_length start stop step = Return len -> (0 < len)%Z ->
  np_arange start stop step =
  Return (map (arange_item start (fadd start step)
                 (fsub (fadd start step) start))
              (seq 0 (Z.to_nat len))).
Proof.
  intros Hlen Hpos. unfold np_arange. rewrite Hlen.
  destruct (Z.leb_spec len 0) as [? | _]; [lia | reflexivity].
Qed.



Lemma solution_length (F0 : A) (t : list A) :
  length (solution I F0 t) = length t.
Proof. unfold solution. apply odeint_length. Qed.

(** The four arrays of a run have the length of the grid. *)
Lemma simulate_lengths (F0 t_max points_per_period : A) (len : Z) :
  arange_length (of_int 0) (fmul t_max T) (fdiv T points_per_period)
    = Return len ->
  returns (simulate I F0 t_max points_per_period)
    (fun '(t, theta, theta_dot, theta_mod) =>
       length t = Z.to_nat len /\ length theta = Z.to_nat len /\
       length theta_dot = Z.to_nat len /\ length theta_mod = Z.to_nat len).
Proof.
  intros Hlen. apply np_arange_length in Hlen.
  apply returns_inv in Hlen. destruct Hlen as [t [Ht Hl]].
  rewrite (simulate_on_grid I F0 _ _ Ht). unfold returns.
  rewrite !length_map, solution_length. auto.
Qed.

(** [plot_results] on the arrays of its run: the first 1000 points of the
    time series, the phase diagram, and the section sampled at the indices
    100, 200, ... *)
Lemma plot_results_on_run (F0 : A) (t theta theta_dot theta_mod : list A) :
  simulate I F0 (of_int 100) (of_int 100)
    = Return (t, theta, theta_dot, theta_mod) ->
  plot_results I F0 =
  Return ((firstn 1000 t, firstn 1000 theta), (theta_mod, theta_dot),
          (strobe theta_mod (of_int 0) 100 100,
           strobe theta_dot (of_int 0) 100 100)).
Proof.
  intros Hrun. unfold plot_results. rewrite Hrun. cbn [bind].
  apply simulate_inv in Hrun. destruct Hrun as (_ & Hth & Hdot & Hmod).
  assert (Hlm : length theta_mod = length t).
  { rewrite Hmod, Hth, !length_map. apply solution_length. }
  assert (Hld : length theta_dot = length t).
  { rewrite Hdot, length_map. apply solution_length. }
  pose proof (@sample_every _ theta_mod (of_int 0) 100 100
                ltac:(lia) ltac:(lia)) as Hm.
  pose proof (@sample_every _ theta_dot (of_int 0) 100 100
                ltac:(lia) ltac:(lia)) as Hd.
  rewrite Hlm in Hm. rewrite Hld in Hd.
  destruct (np_arange_int 100 (Z.of_nat (length t)) 100) as [idx | e];
    cbn [bind] in *; [| discriminate Hm].
  rewrite Hm, Hd. reflexivity.
Qed.

End Lengths.

(** ** The grids of the script's runs *)

(** In binary64 a run of 100 periods has 10001 grid points: the quotient
    [(100 T) / (T / 100)] rounds to the double just above 10000. *)
Lemma b64_grid_100 :
  arange_length (A := float)
    (of_int 0) (fmul (of_int 100) T) (fdiv T (of_int 100))
  = Return 10001%Z.
Proof. vm_compute. reflexivity. Qed.

(** A run of 200 periods has 20001. *)
Lemma b64_grid_200 :
  arange_length (A := float)
    (of_int 0) (fmul (of_int 200) T) (fdiv T (of_int 100))
  = Return 20001%Z.
Proof. vm_compute. reflexivity. Qed.

(** In exact arithmetic a run of 200 periods has 20000 grid points. *)
Lemma R_grid_200 :
  arange_length (A := R)
    (of_int 0) (fmul (of_int 200) T) (fdiv T (of_int 100))
  = Return 20000%Z.
Proof.
  pose proof R_T_pos as HT.
  rewrite R_arange_length by (exact_arith; lra).
  exact_arith. f_equal.
  replace ((200 * T - 0) / (T / 100))%R with (IZR 20000).
  - unfold Zceil. rewrite <- opp_IZR, ZfloorZ. lia.
  - field. lra.
Qed.

(** ** The sweep, in any arithmetic whose 200-period grid has at least
    20000 points *)

Section SweepFacts.
Context {A : Type} {SA : Scalar A} {LA : Libm A} (I : Integrator A).
Variable len : Z.
Hypothesis Hgrid :
  arange_length (of_int 0) (fmul (of_int 200) T) (fdiv T (of_int 100))
  = Return len.
Hypothesis Hlen : (20000 <= len)%Z.

Lemma sweep_indices :
  np_arange_int (100 * 100) (200 * 100) 100 =
  Return (map (fun k => (100 * 100 + Z.of_nat k * 100)%Z) (seq 0 100)).
Proof. rewrite np_arange_int_items by lia. reflexivity. Qed.

Lemma sweep_indices_bound (i : Z) :
  In i (map (fun k => (100 * 100 + Z.of_nat k * 100)%Z) (seq 0 100)) ->
  (100 * 100 <= i < 200 * 100)%Z.
Proof.
  intros Hi. apply in_map_iff in Hi. destruct Hi as [k [<- Hk]].
  apply in_seq in Hk. lia.
Qed.

Lemma sweep_run_in_bounds (F0 : A) :
  returns (simulate I F0 (of_int 200) (of_int 100))
    (fun '(_, _, _, theta_mod) =>
       returns (np_arange_int (100 * 100) (200 * 100) 100)
         (fun poincare_idx =>
            Forall (fun i => (0 <= i < Z.of_nat (length theta_mod))%Z)
                   poincare_idx)).
Proof.
  pose proof (simulate_lengths I F0 _ _ Hgrid) as Hrun.
  revert Hrun. apply returns_weaken.
  intros [[[t theta] theta_dot] theta_mod] (_ & _ & _ & Hm).
  rewrite sweep_indices. cbn [returns].
  apply Forall_forall. intros i Hi. apply sweep_indices_bound in Hi.
  rewrite Hm. lia.
Qed.

Lemma sweep_indices_fit_run (F0 : A) :
  sweep_indices_fit (simulate I F0 (of_int 200) (of_int 100)).
Proof.
  unfold sweep_indices_fit.
  pose proof (sweep_run_in_bounds F0) as Hrun.
  revert Hrun. apply returns_weaken.
  intros [[[t theta] theta_dot] theta_mod].
  rewrite sweep_indices. cbn [returns]. intros Hfit. split; [exact Hfit |].
  rewrite take_in_range with (d := of_int 0) by exact Hfit.
  cbn [returns]. rewrite !length_map, length_seq. reflexivity.
Qed.

Lemma bifurcation_step_spec (acc : list A * list A) (F0 : A) :
  bifurcation_step I acc F0 =
  Return (fst acc ++ steady_state I F0, snd acc ++ repeat F0 100).
Proof.
  destruct acc as [theta_poincare F0_vals]. unfold bifurcation_step, steady_state.
  pose proof (sweep_run_in_bounds F0) as Hrun.
  destruct (simulate I F0 (of_int 200) (of_int 100))
    as [[[[t theta] theta_dot] theta_mod] | e]; cbn [returns] in Hrun;
    [| contradiction].
  cbn [bind theta_mod_of fst snd].
  rewrite sweep_indices in *. cbn [bind returns] in *.
  rewrite take_in_range with (d := of_int 0) by exact Hrun.
  cbn [bind]. rewrite map_map, length_map, length_seq. reflexivity.
Qed.

(** The loop of the sweep appends one group per amplitude, in the order of
    the range. *)
Lemma for_each_bifurcation_step (F0_range : list A) :
  forall acc,
    for_each (bifurcation_step I) F0_range acc =
    Return (fst acc ++ flat_map (steady_state I) F0_range,
            snd acc ++ flat_map (fun F0 => repeat F0 100) F0_range).
Proof.
  induction F0_range as [| F0 rest IH]; intros acc; cbn [for_each flat_map].
  - rewrite !app_nil_r. destruct acc; reflexivity.
  - rewrite bifurcation_step_spec. cbn [bind]. rewrite IH.
    cbn [fst snd]. rewrite <- !app_assoc. reflexivity.
Qed.

Lemma steady_state_length (F0 : A) : length (steady_state I F0) = 100%nat.
Proof. unfold steady_state. rewrite length_map, length_seq. reflexivity. Qed.

(** The samples kept for [F0] are those of the run for [F0] at the indices
    [100 * 100 + 100 j], [j < 100]. *)
Lemma steady_state_items (F0 : A) :
  returns (simulate I F0 (of_int 200) (of_int 100))
    (fun '(_, _, _, theta_mod) =>
       forall j, (j < 100)%nat ->
         nth_error (steady_state I F0) j =
         nth_error theta_mod (Z.to_nat (100 * 100 + Z.of_nat j * 100))).
Proof.
  pose proof (simulate_lengths I F0 _ _ Hgrid) as Hrun.
  unfold steady_state.
  destruct (simulate I F0 (of_int 200) (of_int 100))
    as [[[[t theta] theta_dot] theta_mod] | e]; cbn [returns] in *;
    [| contradiction].
  destruct Hrun as (_ & _ & _ & Hm). cbn [theta_mod_of].
  intros j Hj. rewrite nth_error_map, nth_error_seq.
  destruct (Nat.ltb_spec j 100) as [_ | ?]; [| lia].
  cbn [option_map Nat.add]. symmetry. apply nth_error_nth'. lia.
Qed.

Lemma sweep_groups_run (F0_range : list A) : sweep_groups I F0_range.
Proof.
  split.
  - unfold bifurcation_diagram. rewrite for_each_bifurcation_step. reflexivity.
  - intros F0. split; [apply steady_state_length | apply steady_state_items].
Qed.

End SweepFacts.

(** ** Binary64: the sign of a quotient *)

Lemma binary_round_aux_opp (s : bool) (mx ex : Z) (lx : SpecFloat.location) :
  binary_round_aux prec emax (negb s) mx ex lx =
  SFopp (binary_round_aux prec emax s mx ex lx).
Proof.
  unfold binary_round_aux.
  destruct (shr_fexp prec emax mx ex lx) as [mrs' e'].
  destruct (shr_fexp prec emax _ e' loc_Exact) as [mrs'' e''].
  destruct (shr_m mrs''); try reflexivity.
  destruct (e'' <=? emax - prec)%Z; reflexivity.
Qed.

Lemma SFdiv_opp_l (x y : spec_float) :
  SFdiv prec emax (SFopp x) y = SFopp (SFdiv prec emax x y).
Proof.
  destruct x as [sx | sx | | sx mx ex], y as [sy | sy | | sy my ey];
    cbn [SFdiv SFopp]; try reflexivity;
    try (destruct sx, sy; reflexivity).
  destruct (SFdiv_core_binary prec emax (Z.pos mx) ex (Z.pos my) ey)
    as [[mz ez] lz].
  rewrite <- binary_round_aux_opp. destruct sx, sy; reflexivity.
Qed.

(** Negating the dividend negates the quotient, bit for bit. *)
Lemma b64_div_opp_l (x y : float) : (- x / y)%float = (- (x / y))%float.
Proof.
  apply Prim2SF_inj.
  rewrite div_spec, !opp_spec, div_spec. apply SFdiv_opp_l.
Qed.

(** Every index below [stop] of the form [start + k step] is one of the
    range. *)
Lemma range_index_complete (start stop step : Z) (k : nat) :
  (0 < step)%Z ->
  (start + Z.of_nat k * step < stop)%Z ->
  (k < Z.to_nat (py_range_len start stop step))%nat.
Proof.
  intros Hs Hk. unfold py_range_len.
  destruct (Z.ltb_spec start stop) as [Hlt | Hge]; [| nia].
  pose proof (Z.div_mod (stop - start - 1) step ltac:(lia)) as Hdm.
  pose proof (Z.mod_pos_bound (stop - start - 1) step Hs) as Hb.
  assert (0 <= (stop - start - 1) / step)%Z by (apply Z.div_pos; lia).
  nia.
Qed.

(** ** Exact arithmetic: whole turns *)

Section ExactTurns.
Local Open Scope R_scope.

Lemma Zfloor_add_Z (x : R) (k : Z) : Zfloor (x + IZR k) = (Zfloor x + k)%Z.
Proof.
  apply Zfloor_eq. pose proof (Zfloor_bound x) as Hb.
  rewrite plus_IZR. lra.
Qed.

Lemma R_wrap_angle_floor (theta : R) :
  wrap_angle theta
  = theta - IZR (Zfloor ((theta + PI) / (2 * PI))) * (2 * PI).
Proof.
  unfold wrap_angle. exact_arith.
  pose proof (@R_np_mod_floor (theta + PI) (IZR 2 * PI) R_two_pi_pos) as Hm.
  revert Hm. exact_arith. intros ->. ring.
Qed.

Lemma R_wrap_angle_shift (theta : R) (k : Z) :
  wrap_angle (theta + IZR k * (2 * PI)) = wrap_angle theta.
Proof.
  rewrite !R_wrap_angle_floor.
  replace ((theta + IZR k * (2 * PI) + PI) / (2 * PI))
    with ((theta + PI) / (2 * PI) + IZR k)
    by (pose proof PI_RGT_0; field; lra).
  rewrite Zfloor_add_Z, plus_IZR. ring.
Qed.

End ExactTurns.

(** ** Binary64: values that are not finite, and grids without a length *)

Lemma b64_nan_div (y : float) : (nan / y)%float = nan.
Proof. apply Prim2SF_inj. rewrite div_spec. reflexivity. Qed.

Lemma SFcompare_refl (x : spec_float) :
  x <> S754_nan -> SFcompare x x = Some Eq.
Proof.
  destruct x as [s | s | | s mx e]; cbn [SFcompare]; intros Hx;
    try reflexivity; try congruence.
  - destruct s; reflexivity.
  - rewrite Z.compare_refl, Pos.compare_cont_refl. destruct s; reflexivity.
Qed.

(** The doubles that are not finite are the two infinities and NaN. *)
Lemma b64_not_finite (x : float) :
  is_finite x = false -> x = infinity \/ x = neg_infinity \/ x = nan.
Proof.
  intros Hx. rewrite <- (SF2Prim_Prim2SF x).
  destruct (Prim2SF x) as [s | s | | s mx e] eqn:Ex.
  - exfalso. revert Hx. unfold is_finite, is_nan, is_infinity.
    rewrite !eqb_spec, abs_spec, Ex. destruct s; discriminate.
  - destruct s; [right; left | left]; reflexivity.
  - right; right; reflexivity.
  - exfalso. revert Hx. unfold is_finite, is_nan, is_infinity.
    rewrite !eqb_spec, abs_spec, Ex. unfold SFeqb.
    rewrite SFcompare_refl by discriminate. cbn. discriminate.
Qed.

Section DegenerateGrids.
Context {LA : Libm float} (I : Integrator float).

Lemma b64_is_nonzero_spec (x : float) :
  is_nonzero x = negb (SFeqb (Prim2SF x) (S754_zero false)).
Proof. cbn [is_nonzero Binary64]. rewrite eqb_spec. reflexivity. Qed.

(** A quotient that is infinite or NaN has no length. *)
Lemma b64_arange_length_raises (start stop step : float) :
  match Prim2SF ((stop - start) / step)%float with
  | S754_infinity _ | S754_nan => True
  | _ => False
  end ->
  exists e, arange_length start stop step = Raise e.
Proof.
  unfold arange_length. cbn [fsub fdiv ceil_intp signbit Binary64].
  rewrite b64_is_nonzero_spec. unfold b64_ceil_intp.
  destruct (Prim2SF ((stop - start) / step)%float) as [s | s | | s mx e];
    intros Hq; try contradiction.
  - destruct s; cbn; eauto.
  - cbn. eauto.
Qed.

(** [np.arange] raises when its length does, [ValueError] in place of
    [OverflowError]. *)
Lemma np_arange_raises (start stop step : float) (e : exn) :
  arange_length start stop step = Raise e ->
  np_arange start stop step =
  Raise match e with OverflowError => ValueError | _ => e end.
Proof. intros Hl. unfold np_arange. rewrite Hl. destruct e; reflexivity. Qed.




Lemma b64_positive_finite (x : float) :
  (0 <? x)%float = true -> (x <? infinity)%float = true ->
  exists mx e, Prim2SF x = S754_finite false mx e.
Proof.
  rewrite !ltb_spec. change (Prim2SF 0) with (S754_zero false).
  change (Prim2SF infinity) with (S754_infinity false).
  unfold SFltb. destruct (Prim2SF x) as [s | s | | s mx e]; cbn;
    try discriminate.
  - destruct s; cbn; discriminate.
  - destruct s; cbn; [discriminate | eauto].
Qed.

(** With no points per period the step is [inf]: the grid of a run
    forwards in time is its first point. *)
Lemma b64_zero_ppp_grid (t_max : float) :
  (0 <? t_max * T)%float = true -> (t_max * T <? infinity)%float = true ->
  np_arange (of_int 0) (fmul t_max T) (fdiv T (of_int 0)) = Return [0%float].
Proof.
  intros Hpos Hfin.
  destruct (b64_positive_finite Hpos Hfin) as (mx & e & Hx).
  assert (Hnext : (t_max * T - of_int 0)%float = (t_max * T)%float).
  { apply Prim2SF_inj. rewrite sub_spec, Hx. reflexivity. }
  assert (Hdt : fdiv (T (A := float)) (of_int 0) = infinity)
    by (vm_compute; reflexivity).
  assert (Hval : ((t_max * T - of_int 0) / infinity)%float = 0%float).
  { apply Prim2SF_inj. rewrite div_spec, Hnext, Hx. reflexivity. }
  assert (Hlen : arange_length (of_int 0) (fmul t_max T)
                   (fdiv T (of_int 0)) = Return 1%Z).
  { unfold arange_length. rewrite Hdt. cbn [fsub fdiv fmul Binary64].
    rewrite Hval, Hnext. rewrite (b64_is_nonzero_spec (t_max * T)), Hx.
    reflexivity. }
  unfold np_arange. rewrite Hlen. reflexivity.
Qed.



End DegenerateGrids.

(** * The claims *)

(** ** C1 *)



(** ** C2 *)



(** ** C3 *)

(** C3.  Indexing a trajectory [xs] of length [N] with
    [np.arange(offset, N, P)], [P >= 1], returns the elements at the indices
    [offset], [offset + P], [offset + 2 P], ... below [N], all of them and in
    that order, [len(range(offset, N, P))] elements; [plot_results] samples
    the normalized angle and the angular velocity of its run this way with
    [offset = P = 100], the default [points_per_period]. *)
Theorem stroboscopic_sampler {A : Type} {SA : Scalar A} {LA : Libm A}
  (I : Integrator A) (F0 : A) (t theta theta_dot theta_mod : list A)
  (X : Type) (xs : list X) (d : X) (offset P : Z) :
  (1 <= P)%Z -> (0 <= offset)%Z ->
  simulate I F0 (of_int 100) (of_int 100)
    = Return (t, theta, theta_dot, theta_mod) ->
  (idx <- np_arange_int offset (Z.of_nat (length xs)) P ;; take xs idx)
    = Return (strobe xs d offset P) /\
  Z.of_nat (length (strobe xs d offset P))
    = py_range_len offset (Z.of_nat (length xs)) P /\
  (forall k,
     (k < length (strobe xs d offset P))%nat <->
     (offset + Z.of_nat k * P < Z.of_nat (length xs))%Z) /\
  (forall k, (k < length (strobe xs d offset P))%nat ->
     nth_error (strobe xs d offset P) k
       = nth_error xs (Z.to_nat (offset + Z.of_nat k * P))) /\
  exists series phase,
    plot_results I F0 =
    Return (series, phase,
            (strobe theta_mod (of_int 0) 100 100,
             strobe theta_dot (of_int 0) 100 100)).
Proof.
  intros HP Hoff Hrun.
  assert (Hlen : length (strobe xs d offset P)
                 = Z.to_nat (py_range_len offset (Z.of_nat (length xs)) P)).
  { unfold strobe. rewrite length_map, length_seq. reflexivity. }
  split; [apply sample_every; assumption |].
  split.
  { rewrite Hlen, Z2Nat.id; [reflexivity |].
    rewrite <- arange_len_is_range_len by lia. lia. }
  split.
  { intros k. rewrite Hlen. split.
    - apply range_index_lt_stop. lia.
    - apply range_index_complete. lia. }
  split.
  { intros k Hk. rewrite Hlen in Hk.
    pose proof (@range_index_lt_stop offset (Z.of_nat (length xs)) P k
                  ltac:(lia) Hk) as Hlt.
    unfold strobe. rewrite nth_error_map, nth_error_seq.
    destruct (Nat.ltb_spec k
                (Z.to_nat (py_range_len offset (Z.of_nat (length xs)) P)))
      as [_ | ?]; [| lia].
    cbn [option_map Nat.add]. symmetry. apply nth_error_nth'. nia. }
  rewrite (plot_results_on_run I F0 Hrun). eauto.
Qed.

(** C3, at the run of [plot_results] for [F0 = 1] in binary64 and a list
    of ten elements sampled from index 2 with stride 3. *)
Lemma stroboscopic_sampler_witness :
  (idx <- np_arange_int 2 (Z.of_nat (length [0; 1; 2; 3; 4; 5; 6; 7; 8; 9]%Z)) 3 ;;
   take [0; 1; 2; 3; 4; 5; 6; 7; 8; 9]%Z idx)
  = Return (strobe [0; 1; 2; 3; 4; 5; 6; 7; 8; 9]%Z 0%Z 2 3) /\
  strobe [0; 1; 2; 3; 4; 5; 6; 7; 8; 9]%Z 0%Z 2 3 = [2; 5; 8]%Z.
Proof.
  destruct (simulate (A := float) (LA := taylor_libm) euler
              (of_int 1) (of_int 100) (of_int 100))
    as [[[[t theta] theta_dot] theta_mod] | e] eqn:Hrun.
  - split; [| reflexivity].
    apply (@stroboscopic_sampler float _ taylor_libm euler (of_int 1)
             t theta theta_dot theta_mod
             Z [0; 1; 2; 3; 4; 5; 6; 7; 8; 9]%Z 0%Z 2%Z 3%Z
             ltac:(lia) ltac:(lia) Hrun).
  - exfalso.
    pose proof (simulate_lengths (LA := taylor_libm) euler (of_int 1) _ _
                  b64_grid_100) as Hret.
    rewrite Hrun in Hret. exact Hret.
Defined.

(** ** C4 *)

(** C4.  For every range of amplitudes the sweep runs [simulate] for 200
    periods once per amplitude, in the order of the range, drops the
    samples of the first 100 periods and keeps those of the periods
    100 .. 199; the dataset holds, per amplitude and in that order, one
    group of 100 entries.  This holds in exact arithmetic and in binary64,
    for every integrator. *)
Theorem bifurcation_sweep_groups :
  (forall (I : Integrator R) (F0_range : list R), sweep_groups I F0_range) /\
  (forall (LA : Libm float) (I : Integrator float) (F0_range : list float),
      sweep_groups I F0_range).
Proof.
  split.
  - intros I F0_range. apply (sweep_groups_run I R_grid_200). lia.
  - intros LA I F0_range. apply (sweep_groups_run I b64_grid_200). lia.
Qed.

(** ** C5 *)




(** ** C6 *)

(** C6, as stated, fails in binary64 at [theta = - pi - 2^-51]: the sum
    [theta + pi] is [- 2^-51], its remainder [- 2^-51 + 2 pi] rounds to
    [2 pi], so the normalized angle is [pi]; normalizing [pi] gives
    [- pi]. *)
Lemma wrap_angle_not_idempotent_binary64 :
  wrap_angle (A := float) (-0x1.921fb54442d19p+1)%float = np_pi /\
  wrap_angle (A := float) (wrap_angle (-0x1.921fb54442d19p+1)%float)
    = PrimFloat.opp np_pi /\
  PrimFloat.eqb
    (wrap_angle (A := float) (wrap_angle (-0x1.921fb54442d19p+1)%float))
    (wrap_angle (A := float) (-0x1.921fb54442d19p+1)%float) = false.
Proof. repeat split; vm_compute; reflexivity. Qed.

(** C6, amended.  In exact arithmetic the normalization is idempotent:
    [wrap_angle (wrap_angle theta) = wrap_angle theta] for every angle, and
    normalizing the normalized angles of a run again changes nothing. *)
Theorem wrap_angle_idempotent_exact (I : Integrator R) (F0 t_max P theta : R) :
  wrap_angle (wrap_angle theta) = wrap_angle theta /\
  on_return (simulate I F0 t_max P)
    (fun '(_, _, _, theta_mod) => map wrap_angle theta_mod = theta_mod).
Proof.
  split; [apply R_wrap_angle_idempotent |].
  destruct (simulate I F0 t_max P)
    as [[[[t th] theta_dot] theta_mod] | e] eqn:Hrun;
    cbn [on_return]; [| exact Logic.I].
  apply simulate_inv in Hrun. destruct Hrun as (_ & _ & _ & ->).
  rewrite map_map. apply map_ext. intros y. apply R_wrap_angle_idempotent.
Qed.

(** ** C7 *)




(** ** C9 *)

(** C9.  In the arrays [simulate] returns, the angular velocity is the
    second column of the trajectory [odeint] produced, untouched by the
    normalization; the normalized angle is [wrap_angle] of the first
    column, element by element, and has the length of the trajectory. *)
Theorem normalization_frame {A : Type} {SA : Scalar A} {LA : Libm A}
  (I : Integrator A) (F0 t_max P : A) (t theta theta_dot theta_mod : list A) :
  simulate I F0 t_max P = Return (t, theta, theta_dot, theta_mod) ->
  theta_dot = map snd (solution I F0 t) /\
  theta = map fst (solution I F0 t) /\
  (forall i, nth_error theta_mod i = option_map wrap_angle (nth_error theta i)) /\
  length theta_mod = length (solution I F0 t) /\
  length theta_dot = length (solution I F0 t).
Proof.
  intros Hrun. apply simulate_inv in Hrun.
  destruct Hrun as (_ & Hth & Hdot & Hmod).
  repeat split.
  - exact Hdot.
  - exact Hth.
  - intros i. rewrite Hmod. apply nth_error_map.
  - rewrite Hmod, Hth, !length_map. reflexivity.
  - rewrite Hdot, length_map. reflexivity.
Qed.

(** C9, at a run of one period with two points per period, in binary64. *)
Lemma normalization_frame_witness :
  exists t theta theta_dot theta_mod,
    simulate (A := float) (LA := taylor_libm) euler
      (of_int 15) (of_int 1) (of_int 2)
    = Return (t, theta, theta_dot, theta_mod) /\
    theta_dot = map snd (solution (LA := taylor_libm) euler (of_int 15) t) /\
    length theta_mod = length theta_dot.
Proof.
  destruct (simulate (A := float) (LA := taylor_libm) euler
              (of_int 15) (of_int 1) (of_int 2))
    as [[[[t theta] theta_dot] theta_mod] | e] eqn:Hrun.
  - exists t, theta, theta_dot, theta_mod. split; [reflexivity |].
    destruct (normalization_frame _ _ _ _ Hrun) as (Hdot & _ & _ & Hlm & Hld).
    split; [exact Hdot | congruence].
  - vm_compute in Hrun. discriminate Hrun.
Defined.

(** ** C10 *)

(** C10.  Every index the sweep uses, [100 * 100], [100 * 100 + 100], ...
    below [200 * 100], is below the length of the normalized angles of
    [simulate(F0, 200)], for every amplitude and every integrator: in exact
    arithmetic, where the run has 20000 points, and in binary64, where it
    has 20001. *)
Theorem sweep_indices_in_bounds :
  (forall (I : Integrator R) (F0 : R),
      sweep_indices_fit (simulate I F0 (of_int 200) (of_int 100))) /\
  (forall (LA : Libm float) (I : Integrator float) (F0 : float),
      sweep_indices_fit (simulate I F0 (of_int 200) (of_int 100))).
Proof.
  split.
  - intros I F0. apply (sweep_indices_fit_run I R_grid_200). lia.
  - intros LA I F0. apply (sweep_indices_fit_run I b64_grid_200). lia.
Qed.

(** * Further facts in binary64 *)

(** X1.  In binary64, for [m], [l] and [m * l] other than 0 (no division
    of line 20 raises [ZeroDivisionError] then), the derivative has the
    same shape bit for bit: the sign of the damping term can be taken
    before or after the division. *)
Lemma pendulum_deriv_formula_binary64 (LA : Libm float)
  (theta theta_dot t b m g l F0 omega_d : float) :
  is_nonzero m = true -> is_nonzero l = true ->
  is_nonzero (m * l)%float = true ->
  pendulum_deriv (theta, theta_dot) t b m g l F0 omega_d =
  (theta_dot,
   (- (b / m) * theta_dot - (g / l) * np_sin theta
    + (F0 / (m * l)) * np_cos (omega_d * t))%float).
Proof.
  intros _ _ _.
  unfold pendulum_deriv. cbn [fadd fsub fmul fdiv fneg Binary64].
  rewrite b64_div_opp_l. reflexivity.
Qed.

(** X1, at the script's parameters with [F0 = 15], in the state [(1, 2)]
    at the time 3. *)
Lemma pendulum_deriv_formula_binary64_witness :
  pendulum_deriv (LA := taylor_libm) (1%float, 2%float) 3%float
    b m g l (of_int 15) omega_d =
  (2%float,
   (- (b / m) * 2 - (g / l) * np_sin (Libm := taylor_libm) 1
    + (of_int 15 / (m * l)) * np_cos (Libm := taylor_libm) (omega_d * 3))%float).
Proof.
  apply (@pendulum_deriv_formula_binary64 taylor_libm);
    vm_compute; reflexivity.
Defined.

(** X2.  The runs of the script have one grid point more than
    [total_periods * points_per_period]. *)
Lemma b64_run_lengths (LA : Libm float) (I : Integrator float) (F0 : float) :
  returns (simulate I F0 (of_int 100) (of_int 100))
    (fun '(t, _, _, theta_mod) =>
       Z.of_nat (length t) = 10001%Z /\ Z.of_nat (length theta_mod) = 10001%Z) /\
  returns (simulate I F0 (of_int 200) (of_int 100))
    (fun '(t, _, _, theta_mod) =>
       Z.of_nat (length t) = 20001%Z /\ Z.of_nat (length theta_mod) = 20001%Z).
Proof.
  split.
  - pose proof (simulate_lengths I F0 _ _ b64_grid_100) as Hrun.
    revert Hrun. apply returns_weaken.
    intros [[[t theta] theta_dot] theta_mod] (Ht & _ & _ & Hm).
    rewrite Ht, Hm. lia.
  - pose proof (simulate_lengths I F0 _ _ b64_grid_200) as Hrun.
    revert Hrun. apply returns_weaken.
    intros [[[t theta] theta_dot] theta_mod] (Ht & _ & _ & Hm).
    rewrite Ht, Hm. lia.
Qed.

(** The default range of the sweep, [np.arange(0, 20.1, 0.2)], holds 101
    amplitudes, from 0 to 20. *)
Lemma b64_F0_range_default :
  returns (F0_range_default (A := float))
    (fun F0_range =>
       length F0_range = 101%nat /\
       nth_error F0_range 0 = Some 0%float /\
       nth_error F0_range 100 = Some 20%float).
Proof. vm_compute. repeat split; reflexivity. Qed.

(** * The script as a whole *)

(** In exact arithmetic a run of 100 periods has 10000 grid points. *)
Lemma R_grid_100 :
  arange_length (A := R)
    (of_int 0) (fmul (of_int 100) T) (fdiv T (of_int 100))
  = Return 10000%Z.
Proof.
  pose proof R_T_pos as HT.
  rewrite R_arange_length by (exact_arith; lra).
  exact_arith. f_equal.
  replace ((100 * T - 0) / (T / 100))%R with (IZR 10000).
  - unfold Zceil. rewrite <- opp_IZR, ZfloorZ. lia.
  - field. lra.
Qed.

(** * The normalization in exact arithmetic *)

(** X3.  The normalized angle is the representative of [theta] modulo
    [2 pi] in [[- pi, pi)]: it differs from [theta] by a whole number of
    turns. *)
Lemma wrap_angle_representative (theta : R) :
  exists k : Z,
    (wrap_angle theta = theta - IZR k * (2 * PI))%R /\
    (- PI <= wrap_angle theta < PI)%R.
Proof.
  exists (Zfloor ((theta + PI) / (2 * PI))%R).
  split; [| apply R_wrap_angle_range].
  unfold wrap_angle. exact_arith.
  pose proof (@R_np_mod_floor (theta + PI) (IZR 2 * PI) R_two_pi_pos) as Hm.
  revert Hm. exact_arith. intros ->. ring.
Qed.

(** * More on the normalization

    The normalization in exact arithmetic: [wrap_angle theta] is [theta]
    moved by whole turns. *)

Section ExactAngles.
Local Open Scope R_scope.

Lemma sin_turns (x : R) (k : Z) : sin (x + IZR k * (2 * PI)) = sin x.
Proof.
  destruct (Z_le_gt_dec 0 k) as [Hk | Hk].
  - rewrite <- (sin_period x (Z.to_nat k)). f_equal.
    rewrite INR_IZR_INZ, Z2Nat.id by lia. ring.
  - rewrite <- (sin_period (x + IZR k * (2 * PI)) (Z.to_nat (- k))). f_equal.
    rewrite INR_IZR_INZ, Z2Nat.id, opp_IZR by lia. ring.
Qed.

Lemma cos_turns (x : R) (k : Z) : cos (x + IZR k * (2 * PI)) = cos x.
Proof.
  destruct (Z_le_gt_dec 0 k) as [Hk | Hk].
  - rewrite <- (cos_period x (Z.to_nat k)). f_equal.
    rewrite INR_IZR_INZ, Z2Nat.id by lia. ring.
  - rewrite <- (cos_period (x + IZR k * (2 * PI)) (Z.to_nat (- k))). f_equal.
    rewrite INR_IZR_INZ, Z2Nat.id, opp_IZR by lia. ring.
Qed.

Lemma R_wrap_angle_sin (theta : R) : sin (wrap_angle theta) = sin theta.
Proof.
  rewrite R_wrap_angle_floor.
  set (k := Zfloor ((theta + PI) / (2 * PI))).
  replace (theta - IZR k * (2 * PI)) with (theta + IZR (- k) * (2 * PI))
    by (rewrite opp_IZR; ring).
  apply sin_turns.
Qed.

Lemma R_wrap_angle_cos (theta : R) : cos (wrap_angle theta) = cos theta.
Proof.
  rewrite R_wrap_angle_floor.
  set (k := Zfloor ((theta + PI) / (2 * PI))).
  replace (theta - IZR k * (2 * PI)) with (theta + IZR (- k) * (2 * PI))
    by (rewrite opp_IZR; ring).
  apply cos_turns.
Qed.

(** X4.  In exact arithmetic two angles have the same normalized angle
    exactly when they differ by a whole number of turns. *)
Theorem wrap_angle_same_iff (a c : R) :
  wrap_angle a = wrap_angle c <-> exists k : Z, a - c = IZR k * (2 * PI).
Proof.
  split.
  - intros Heq. rewrite !R_wrap_angle_floor in Heq.
    exists (Zfloor ((a + PI) / (2 * PI)) - Zfloor ((c + PI) / (2 * PI)))%Z.
    rewrite minus_IZR. lra.
  - intros [k Hk].
    replace a with (c + IZR k * (2 * PI)) by lra.
    apply R_wrap_angle_shift.
Qed.

(** X5.  In exact arithmetic the normalized angle describes the same
    position of the pendulum as the angle itself (same sine and cosine), and
    [pendulum_deriv] returns the same derivative at both. *)
Theorem wrap_angle_keeps_dynamics
  (theta theta_dot t b m g l F0 omega_d : R) :
  sin (wrap_angle theta) = sin theta /\
  cos (wrap_angle theta) = cos theta /\
  pendulum_deriv (wrap_angle theta, theta_dot) t b m g l F0 omega_d =
  pendulum_deriv (theta, theta_dot) t b m g l F0 omega_d.
Proof.
  split; [apply R_wrap_angle_sin |]. split; [apply R_wrap_angle_cos |].
  unfold pendulum_deriv. exact_arith. rewrite R_wrap_angle_sin. reflexivity.
Qed.

Lemma R_omega_d_T : (omega_d * T = 2 * PI)%R.
Proof.
  pose proof R_omega_d_pos as Hw. unfold T. exact_arith. field. lra.
Qed.

End ExactAngles.

Lemma map_fixed {X : Type} (f : X -> X) (xs : list X) :
  map f xs = xs <-> Forall (fun x => f x = x) xs.
Proof.
  induction xs as [| x rest IH]; cbn [map]; split.
  - constructor.
  - reflexivity.
  - intros Heq. injection Heq as Hx Hrest. constructor; [exact Hx |].
    apply IH. exact Hrest.
  - intros Hall. inversion Hall as [| ? ? Hx Hrest]; subst.
    rewrite Hx. f_equal. apply IH. exact Hrest.
Qed.

Section ExactIdentity.
Local Open Scope R_scope.

Lemma R_wrap_angle_fixed_iff (theta : R) :
  wrap_angle theta = theta <-> - PI <= theta < PI.
Proof.
  split.
  - intros <-. apply R_wrap_angle_range.
  - apply R_wrap_angle_fixed.
Qed.

(** X6.  In exact arithmetic the normalization leaves an angle as it is
    exactly when the angle lies in [[- pi, pi)]; the normalized angles of a
    run are the angles themselves exactly when the whole trajectory stays
    there. *)
Theorem normalization_identity_on_librations
  (I : Integrator R) (F0 t_max P theta : R) :
  (wrap_angle theta = theta <-> - PI <= theta < PI) /\
  on_return (simulate I F0 t_max P)
    (fun '(_, th, _, theta_mod) =>
       theta_mod = th <-> Forall (fun x => - PI <= x < PI) th).
Proof.
  split; [apply R_wrap_angle_fixed_iff |].
  destruct (simulate I F0 t_max P)
    as [[[[t th] theta_dot] theta_mod] | e] eqn:Hrun;
    cbn [on_return]; [| exact Logic.I].
  apply simulate_inv in Hrun. destruct Hrun as (_ & _ & _ & ->).
  rewrite map_fixed. split; apply Forall_impl; intros x;
    apply R_wrap_angle_fixed_iff.
Qed.

End ExactIdentity.

(** * The right-hand side of the equation of motion *)

Section ExactField.
Local Open Scope R_scope.

(** X7.  In exact arithmetic, with [n >= 1] points per period, grid times
    that are a whole number [k] of strides [n] apart differ by [k T], and the
    right-hand side of the equation is the same function of the state at
    both: the drive has the same phase at all the samples of a stroboscopic
    section. *)
Theorem stroboscopic_samples_share_drive_phase
  (I : Integrator R) (F0 t_max : R) (n : Z) :
  (0 < n)%Z ->
  returns (simulate I F0 t_max (of_int n))
    (fun '(t, _, _, _) =>
       forall i k : nat, (i + k * Z.to_nat n < length t)%nat ->
         nth (i + k * Z.to_nat n) t 0 = nth i t 0 + INR k * T /\
         forall state,
           pendulum_deriv state (nth (i + k * Z.to_nat n) t 0)
                          b m g l F0 omega_d =
           pendulum_deriv state (nth i t 0) b m g l F0 omega_d).
Proof.
  intros Hn. exact_arith.
  assert (HP : IZR n <> 0) by (apply not_0_IZR; lia).
  rewrite R_simulate by exact HP.
  unfold returns. cbv beta iota zeta.
  intros i k Hik. rewrite length_map, length_seq in Hik.
  assert (Hshift : nth (i + k * Z.to_nat n)
             (map (fun j => INR j * (T / IZR n))
                (seq 0 (Z.to_nat (Zceil (t_max * IZR n))))) 0
           = nth i (map (fun j => INR j * (T / IZR n))
                (seq 0 (Z.to_nat (Zceil (t_max * IZR n))))) 0 + INR k * T).
  { rewrite !nth_map_seq by nia.
    rewrite plus_INR, mult_INR, (INR_IZR_INZ (Z.to_nat n)), Z2Nat.id by lia.
    field. exact HP. }
  split; [exact Hshift |].
  intros [theta theta_dot]. rewrite Hshift.
  unfold pendulum_deriv. exact_arith. do 2 f_equal. f_equal.
  rewrite Rmult_plus_distr_l.
  replace (omega_d * (INR k * T)) with (INR k * (omega_d * T)) by ring.
  rewrite R_omega_d_T.
  replace (INR k * (2 * PI)) with (2 * INR k * PI) by ring.
  apply cos_period.
Qed.

(** X7, at the run of [plot_results] for [F0 = 15]. *)
Lemma stroboscopic_samples_share_drive_phase_witness :
  returns (simulate (A := R) euler 15%R 100%R (of_int 100))
    (fun '(t, _, _, _) =>
       forall i k : nat, (i + k * Z.to_nat 100 < length t)%nat ->
         nth (i + k * Z.to_nat 100) t 0%R = (nth i t 0 + INR k * T)%R /\
         forall state,
           pendulum_deriv state (nth (i + k * Z.to_nat 100) t 0%R)
                          b m g l 15%R omega_d =
           pendulum_deriv state (nth i t 0%R) b m g l 15%R omega_d).
Proof.
  apply (@stroboscopic_samples_share_drive_phase euler 15%R 100%R 100%Z). lia.
Defined.

(** X8.  In exact arithmetic the derivative is odd under the reflection
    [(theta, theta_dot, F0) -> (- theta, - theta_dot, - F0)], and, with the
    script's drive frequency, under the reflection of the state together
    with a shift of the time by half a drive period. *)
Theorem pendulum_deriv_symmetry (theta theta_dot t b m g l F0 : R) :
  pendulum_deriv (- theta, - theta_dot) t b m g l (- F0) omega_d
  = (- fst (pendulum_deriv (theta, theta_dot) t b m g l F0 omega_d),
     - snd (pendulum_deriv (theta, theta_dot) t b m g l F0 omega_d)) /\
  pendulum_deriv (- theta, - theta_dot) (t + T / 2) b m g l F0 omega_d
  = (- fst (pendulum_deriv (theta, theta_dot) t b m g l F0 omega_d),
     - snd (pendulum_deriv (theta, theta_dot) t b m g l F0 omega_d)).
Proof.
  unfold pendulum_deriv. exact_arith. cbn [fst snd]. split.
  - f_equal. rewrite sin_neg. unfold Rdiv. ring.
  - f_equal.
    replace (omega_d * (t + T / 2)) with (omega_d * t + omega_d * T / 2)
      by field.
    rewrite R_omega_d_T.
    replace (2 * PI / 2) with PI by field.
    rewrite neg_cos, sin_neg. unfold Rdiv. ring.
Qed.

(** X9.  In exact arithmetic, along every trajectory whose derivative at
    the time [t] is what [pendulum_deriv] returns ([m] and [l] other than
    0), the mechanical energy per unit mass
    [l^2 theta_dot^2 / 2 + g l (1 - cos theta)] changes at the rate
    [- (b/m) l^2 theta_dot^2 + (F0/m) l theta_dot cos(omega_d t)]; without
    damping and forcing it is conserved. *)
Theorem energy_balance (theta omega : R -> R) (t b m g l F0 omega_d : R) :
  m <> 0 -> l <> 0 ->
  derivable_pt_lim theta t
    (fst (pendulum_deriv (theta t, omega t) t b m g l F0 omega_d)) ->
  derivable_pt_lim omega t
    (snd (pendulum_deriv (theta t, omega t) t b m g l F0 omega_d)) ->
  derivable_pt_lim (fun s => energy l g (theta s) (omega s)) t
    (- (b / m) * l ^ 2 * omega t ^ 2
     + F0 / m * l * omega t * cos (omega_d * t)) /\
  (b = 0 -> F0 = 0 ->
   derivable_pt_lim (fun s => energy l g (theta s) (omega s)) t 0).
Proof.
  intros Hm Hl. unfold pendulum_deriv. exact_arith. cbn [fst snd].
  intros Hth Hom.
  assert (Hrate : forall a,
    a = - (b / m) * l ^ 2 * omega t ^ 2
        + F0 / m * l * omega t * cos (omega_d * t) ->
    derivable_pt_lim (fun s => energy l g (theta s) (omega s)) t a).
  { intros a ->.
    set (dw := - b / m * omega t - g / l * sin (theta t)
               + F0 / (m * l) * cos (omega_d * t)) in *.
    replace (- (b / m) * l ^ 2 * omega t ^ 2
             + F0 / m * l * omega t * cos (omega_d * t))
      with (1 / 2 * l ^ 2 * (dw * omega t + omega t * dw)
            + g * l * (0 - - sin (theta t) * omega t))
      by (unfold dw; field; split; assumption).
    apply derivable_pt_lim_ext with
      (f := plus_fct
         (mult_real_fct (1 / 2 * l ^ 2) (mult_fct omega omega))
         (mult_real_fct (g * l) (minus_fct (fct_cte 1) (comp cos theta)))).
    { intros z. unfold energy, plus_fct, mult_real_fct, mult_fct, minus_fct,
        fct_cte, comp. ring. }
    apply derivable_pt_lim_plus.
    - apply derivable_pt_lim_scal. apply derivable_pt_lim_mult; assumption.
    - apply derivable_pt_lim_scal. apply derivable_pt_lim_minus.
      + apply derivable_pt_lim_const.
      + apply derivable_pt_lim_comp; [exact Hth | apply derivable_pt_lim_cos]. }
  split.
  - apply Hrate. reflexivity.
  - intros -> ->. apply Hrate. unfold Rdiv. ring.
Qed.

End ExactField.

(** X9, at the script's parameters with [F0 = 15], at the time 0, on the
    trajectory [theta s = s], [theta_dot s = 1 + c s] that passes the
    bottom with the angular velocity 1, [c] being the acceleration
    [pendulum_deriv] returns there: the energy changes at the rate
    [- (b/m) l^2 + (15/m) l]. *)
Lemma energy_balance_witness :
  derivable_pt_lim
    (fun s : R =>
       energy (l (A := R)) g s
         (1 + snd (pendulum_deriv (0, 1) 0 b m g l 15 omega_d) * s))%R
    0%R
    (- (b / m) * l ^ 2
       * (1 + snd (pendulum_deriv (0, 1) 0 b m g l 15 omega_d) * 0) ^ 2
     + 15 / m * l
       * (1 + snd (pendulum_deriv (0, 1) 0 b m g l 15 omega_d) * 0)
       * cos (omega_d * 0))%R.
Proof.
  assert (Hm : m (A := R) <> 0%R) by (unfold m; cbn; lra).
  assert (Hl : l (A := R) <> 0%R) by (unfold l; cbn; lra).
  set (c := snd (pendulum_deriv (A := R) (0, 1)%R 0%R b m g l 15%R omega_d)).
  refine (proj1 (@energy_balance (fun s => s) (fun s => (1 + c * s)%R) 0%R
                   b m g l 15%R omega_d Hm Hl _ _)).
  - cbv beta. replace (1 + c * 0)%R with 1%R by ring.
    unfold pendulum_deriv. cbn [fst]. apply derivable_pt_lim_id.
  - cbv beta. replace (1 + c * 0)%R with 1%R by ring. fold c.
    apply derivable_pt_lim_ext with
      (f := plus_fct (fct_cte 1%R) (mult_real_fct c id)).
    { intros z. reflexivity. }
    replace c with (0 + c * 1)%R at 2 by ring.
    apply derivable_pt_lim_plus.
    + apply derivable_pt_lim_const.
    + apply derivable_pt_lim_scal. apply derivable_pt_lim_id.
Defined.

(** * Runs on a prefix of the grid, and the stroboscopic section *)

Lemma seq_add_map (a n : nat) : seq a n = map (Nat.add a) (seq 0 n).
Proof.
  revert a. induction n as [| n IH]; intros a; [reflexivity |].
  cbn [seq map]. rewrite Nat.add_0_r. f_equal.
  rewrite (IH (S a)), (IH 1%nat), map_map. apply map_ext. intros j. lia.
Qed.

Lemma firstn_seq (n : nat) :
  forall a k : nat, firstn n (seq a k) = seq a (Nat.min n k).
Proof.
  induction n as [| n IH]; intros a [| k]; cbn [firstn seq Nat.min];
    try reflexivity.
  rewrite IH. reflexivity.
Qed.

Lemma firstn_map_seq {X : Type} (f : nat -> X) (n k : nat) :
  (n <= k)%nat -> firstn n (map f (seq 0 k)) = map f (seq 0 n).
Proof.
  intros Hnk. rewrite firstn_map, firstn_seq. f_equal. f_equal. lia.
Qed.

Section OdeintPrefix.
Context {A : Type} (I : Integrator A).

Lemma odeint_loop_firstn (func : A * A -> A -> A * A) (n : nat) :
  forall (touts : list A) (w : workspace I),
    odeint_loop I func w (firstn n touts)
    = firstn n (odeint_loop I func w touts).
Proof.
  induction n as [| n IH]; intros [| tout rest] w; cbn [firstn odeint_loop];
    try reflexivity.
  rewrite IH. reflexivity.
Qed.

(** The rows [odeint] returns for the first [n] times do not depend on the
    times requested after them. *)
Lemma odeint_firstn (func : A * A -> A -> A * A) (y0 : A * A) (n : nat)
  (t : list A) :
  odeint I func y0 (firstn n t) = firstn n (odeint I func y0 t).
Proof.
  destruct n as [| n], t as [| t0 touts]; cbn [firstn odeint]; try reflexivity.
  rewrite odeint_loop_firstn. reflexivity.
Qed.

End OdeintPrefix.

Section SectionFacts.
Context {A : Type} {SA : Scalar A} {LA : Libm A} (I : Integrator A).

Lemma solution_firstn (F0 : A) (n : nat) (t : list A) :
  solution I F0 (firstn n t) = firstn n (solution I F0 t).
Proof. unfold solution. apply odeint_firstn. Qed.

(** A run on a prefix of the grid returns the prefixes of the arrays. *)
Lemma simulate_prefix (F0 t1 t2 P : A) (ga gb : list A) (n : nat) :
  np_arange (of_int 0) (fmul t1 T) (fdiv T P) = Return ga ->
  np_arange (of_int 0) (fmul t2 T) (fdiv T P) = Return gb ->
  ga = firstn n gb ->
  returns (simulate I F0 t1 P)
    (fun '(ta, tha, da, ma) =>
       returns (simulate I F0 t2 P)
         (fun '(tb, thb, db, mb) =>
            ta = firstn n tb /\ tha = firstn n thb /\
            da = firstn n db /\ ma = firstn n mb)).
Proof.
  intros Ha Hb ->.
  rewrite (simulate_on_grid I F0 _ _ Ha), (simulate_on_grid I F0 _ _ Hb).
  cbn [returns]. rewrite solution_firstn, <- !firstn_map. auto.
Qed.

Variable len : Z.
Hypothesis Hgrid :
  arange_length (of_int 0) (fmul (of_int 200) T) (fdiv T (of_int 100))
  = Return len.
Hypothesis Hlen : (20000 <= len)%Z.

(** The samples the sweep keeps are the 100th to the 199th element of the
    stroboscopic section of its run. *)
Lemma steady_state_in_section (F0 : A) :
  returns (simulate I F0 (of_int 200) (of_int 100))
    (fun '(_, _, _, theta_mod) =>
       Z.of_nat (length (strobe theta_mod (of_int 0) 100 100))
         = py_range_len 100 len 100 /\
       steady_state I F0
         = firstn 100 (skipn 99 (strobe theta_mod (of_int 0) 100 100))).
Proof.
  pose proof (simulate_lengths I F0 _ _ Hgrid) as Hrun.
  unfold steady_state.
  destruct (simulate I F0 (of_int 200) (of_int 100))
    as [[[[t theta] theta_dot] theta_mod] | e]; cbn [returns] in *;
    [| contradiction].
  destruct Hrun as (_ & _ & _ & Hm). cbn [theta_mod_of].
  unfold strobe. rewrite Hm, Z2Nat.id by lia.
  assert (Hrl : (199 <= py_range_len 100 len 100)%Z).
  { unfold py_range_len. destruct (Z.ltb_spec 100 len) as [_ | ?]; [| lia].
    pose proof (Z.div_le_mono 19899 (len - 100 - 1) 100 ltac:(lia) ltac:(lia))
      as Hd.
    change (19899 / 100)%Z with 198%Z in Hd. lia. }
  split.
  - rewrite length_map, length_seq, Z2Nat.id by lia. reflexivity.
  - rewrite skipn_map, firstn_map, skipn_seq, firstn_seq.
    replace (Nat.min 100 (Z.to_nat (py_range_len 100 len 100) - 99))
      with 100%nat by lia.
    rewrite (seq_add_map (0 + 99) 100), map_map. apply map_ext.
    intros j. f_equal. lia.
Qed.

Lemma bifurcation_diagram_app (r1 r2 : list A) :
  bifurcation_diagram I (r1 ++ r2) =
  bind (bifurcation_diagram I r1) (fun d1 =>
  bind (bifurcation_diagram I r2) (fun d2 =>
  Return (fst d1 ++ fst d2, snd d1 ++ snd d2))).
Proof.
  destruct (sweep_groups_run I Hgrid Hlen (r1 ++ r2)) as [-> _].
  destruct (sweep_groups_run I Hgrid Hlen r1) as [-> _].
  destruct (sweep_groups_run I Hgrid Hlen r2) as [-> _].
  cbn [bind fst snd]. rewrite !flat_map_app. reflexivity.
Qed.

End SectionFacts.

(** * The dataset of the sweep *)

Section DatasetFacts.
Context {A : Type} {SA : Scalar A} {LA : Libm A} (I : Integrator A).
Variable len : Z.
Hypothesis Hgrid :
  arange_length (of_int 0) (fmul (of_int 200) T) (fdiv T (of_int 100))
  = Return len.
Hypothesis Hlen : (20000 <= len)%Z.

Lemma bifurcation_dataset_lengths (F0_range : list A) :
  returns (bifurcation_diagram I F0_range)
    (fun '(F0_vals, theta_poincare) =>
       length F0_vals = length theta_poincare /\
       length theta_poincare = (length F0_range * 100)%nat /\
       forall F0, In F0 F0_vals <-> In F0 F0_range).
Proof.
  destruct (sweep_groups_run I Hgrid Hlen F0_range) as [-> _].
  cbn [returns].
  assert (Hx : length (flat_map (fun F0 => repeat F0 100) F0_range)
               = (length F0_range * 100)%nat).
  { apply flat_map_constant_length. intros x _. apply repeat_length. }
  assert (Hy : length (flat_map (steady_state I) F0_range)
               = (length F0_range * 100)%nat).
  { apply flat_map_constant_length. intros x _. apply steady_state_length. }
  split; [congruence |]. split; [exact Hy |].
  intros F0. rewrite in_flat_map. split.
  - intros [x [Hx' Hin]]. apply repeat_spec in Hin. subst. exact Hx'.
  - intros Hin. exists F0. split; [exact Hin |]. cbn [repeat]. left. reflexivity.
Qed.

End DatasetFacts.

Lemma py_range_len_exact_200 : py_range_len 100 20000 100 = 199%Z.
Proof. reflexivity. Qed.

Lemma py_range_len_b64_200 : py_range_len 100 20001 100 = 200%Z.
Proof. reflexivity. Qed.

(** X10.  The samples the sweep keeps for an amplitude are a contiguous
    part of the stroboscopic section (offset 100, stride 100) of its run of
    200 periods: in exact arithmetic the section has 199 elements and the
    sweep keeps the last 100; in binary64 it has 200 and the sweep keeps the
    elements 99 .. 198, leaving out the last one. *)
Theorem sweep_keeps_tail_of_section :
  (forall (I : Integrator R) (F0 : R),
      returns (simulate I F0 (of_int 200) (of_int 100))
        (fun '(_, _, _, theta_mod) =>
           let section := strobe theta_mod (of_int 0) 100 100 in
           length section = 199%nat /\
           steady_state I F0 = skipn 99 section)) /\
  (forall (LA : Libm float) (I : Integrator float) (F0 : float),
      returns (simulate I F0 (of_int 200) (of_int 100))
        (fun '(_, _, _, theta_mod) =>
           let section := strobe theta_mod (of_int 0) 100 100 in
           length section = 200%nat /\
           steady_state I F0 = firstn 100 (skipn 99 section))).
Proof.
  split.
  - intros I F0.
    pose proof (steady_state_in_section I R_grid_200 ltac:(lia) F0) as Hrun.
    revert Hrun. apply returns_weaken.
    intros [[[t theta] theta_dot] theta_mod] [Hl Hs]. cbv zeta.
    rewrite py_range_len_exact_200 in Hl.
    assert (Hl' : length (strobe theta_mod (of_int 0) 100 100) = 199%nat) by lia.
    split; [exact Hl' |].
    rewrite Hs. apply firstn_all2. rewrite length_skipn, Hl'. lia.
  - intros LA I F0.
    pose proof (steady_state_in_section I b64_grid_200 ltac:(lia) F0) as Hrun.
    revert Hrun. apply returns_weaken.
    intros [[[t theta] theta_dot] theta_mod] [Hl Hs]. cbv zeta.
    rewrite py_range_len_b64_200 in Hl.
    split; [lia | exact Hs].
Qed.

(** X11.  The sweep over an empty range gives two empty lists, and the
    sweep over a concatenation of two ranges gives the concatenation of the
    two datasets: the runs of different amplitudes do not influence each
    other. *)
Theorem bifurcation_diagram_splits :
  (forall (I : Integrator R) (r1 r2 : list R),
      bifurcation_diagram I [] = Return ([], []) /\
      bifurcation_diagram I (r1 ++ r2) =
      bind (bifurcation_diagram I r1) (fun d1 =>
      bind (bifurcation_diagram I r2) (fun d2 =>
      Return (fst d1 ++ fst d2, snd d1 ++ snd d2)))) /\
  (forall (LA : Libm float) (I : Integrator float) (r1 r2 : list float),
      bifurcation_diagram I [] = Return ([], []) /\
      bifurcation_diagram I (r1 ++ r2) =
      bind (bifurcation_diagram I r1) (fun d1 =>
      bind (bifurcation_diagram I r2) (fun d2 =>
      Return (fst d1 ++ fst d2, snd d1 ++ snd d2)))).
Proof.
  split.
  - intros I r1 r2. split; [reflexivity |].
    apply (bifurcation_diagram_app I R_grid_200). lia.
  - intros LA I r1 r2. split; [reflexivity |].
    apply (bifurcation_diagram_app I b64_grid_200). lia.
Qed.

Lemma steady_state_range (I : Integrator R) (F0 : R) :
  Forall (fun y => (- PI <= y < PI)%R) (steady_state I F0).
Proof.
  unfold steady_state. apply Forall_forall. intros y Hy.
  apply in_map_iff in Hy. destruct Hy as [j [<- _]].
  set (i := Z.to_nat (100 * 100 + Z.of_nat j * 100)).
  destruct (simulate I F0 (of_int 200) (of_int 100))
    as [[[[t theta] theta_dot] theta_mod] | e] eqn:Hrun; cbn [theta_mod_of].
  - apply simulate_inv in Hrun. destruct Hrun as (_ & _ & _ & ->).
    destruct (nth_in_or_default i (map wrap_angle theta) (of_int 0))
      as [Hin | ->].
    + apply in_map_iff in Hin. destruct Hin as [x [<- _]].
      apply R_wrap_angle_range.
    + exact_arith. pose proof PI_RGT_0. lra.
  - destruct i; cbn [nth]; exact_arith; pose proof PI_RGT_0; lra.
Qed.

(** X12.  The two lists the sweep hands to the plot have the same length,
    100 times the number of amplitudes; the amplitudes listed are those of
    the range; and in exact arithmetic every angle lies in [[- pi, pi)]. *)
Theorem bifurcation_dataset_shape :
  (forall (I : Integrator R) (F0_range : list R),
      returns (bifurcation_diagram I F0_range)
        (fun '(F0_vals, theta_poincare) =>
           length F0_vals = length theta_poincare /\
           length theta_poincare = (length F0_range * 100)%nat /\
           (forall F0, In F0 F0_vals <-> In F0 F0_range) /\
           Forall (fun y => (- PI <= y < PI)%R) theta_poincare)) /\
  (forall (LA : Libm float) (I : Integrator float) (F0_range : list float),
      returns (bifurcation_diagram I F0_range)
        (fun '(F0_vals, theta_poincare) =>
           length F0_vals = length theta_poincare /\
           length theta_poincare = (length F0_range * 100)%nat /\
           (forall F0, In F0 F0_vals <-> In F0 F0_range))).
Proof.
  split.
  - intros I F0_range.
    pose proof (bifurcation_dataset_lengths I R_grid_200 ltac:(lia) F0_range)
      as Hd.
    destruct (sweep_groups_run I R_grid_200 ltac:(lia) F0_range) as [Heq _].
    rewrite Heq in *. cbn [returns] in *.
    destruct Hd as (H1 & H2 & H3). repeat split; try assumption.
    + apply H3.
    + apply H3.
    + apply Forall_flat_map. apply Forall_forall. intros F0 _.
      apply steady_state_range.
  - intros LA I F0_range.
    apply (bifurcation_dataset_lengths I b64_grid_200). lia.
Qed.

(** * The order of the sweep *)

Lemma combine_app_eq {X Y : Type} (l1 l2 : list X) (l1' l2' : list Y) :
  length l1 = length l1' ->
  combine (l1 ++ l2) (l1' ++ l2') = combine l1 l1' ++ combine l2 l2'.
Proof.
  revert l1'. induction l1 as [| x l1 IH]; intros [| y l1'] Hl;
    cbn [length] in Hl; try discriminate; cbn [app combine];
    [reflexivity |].
  rewrite IH by lia. reflexivity.
Qed.

Lemma combine_flat_map {X Y Z : Type} (f : X -> list Y) (g : X -> list Z)
  (xs : list X) :
  (forall x, length (f x) = length (g x)) ->
  combine (flat_map f xs) (flat_map g xs)
  = flat_map (fun x => combine (f x) (g x)) xs.
Proof.
  intros Hl. induction xs as [| x rest IH]; cbn [flat_map]; [reflexivity |].
  rewrite combine_app_eq by apply Hl. rewrite IH. reflexivity.
Qed.

Section OrderFacts.
Context {A : Type} {SA : Scalar A} {LA : Libm A} (I : Integrator A).
Variable len : Z.
Hypothesis Hgrid :
  arange_length (of_int 0) (fmul (of_int 200) T) (fdiv T (of_int 100))
  = Return len.
Hypothesis Hlen : (20000 <= len)%Z.

(** The points of the diagram: each amplitude beside each of its samples. *)
Lemma bifurcation_points (F0_range : list A) :
  returns (bifurcation_diagram I F0_range)
    (fun d =>
       combine (fst d) (snd d)
       = flat_map (fun F0 => combine (repeat F0 100) (steady_state I F0))
                  F0_range).
Proof.
  destruct (sweep_groups_run I Hgrid Hlen F0_range) as [-> _].
  cbn [returns fst snd]. apply combine_flat_map.
  intros F0. rewrite repeat_length, steady_state_length. reflexivity.
Qed.

Lemma bifurcation_points_perm (r1 r2 : list A) :
  Permutation r1 r2 ->
  returns (bifurcation_diagram I r1)
    (fun d1 =>
       returns (bifurcation_diagram I r2)
         (fun d2 =>
            Permutation (combine (fst d1) (snd d1))
                        (combine (fst d2) (snd d2)))).
Proof.
  intros Hperm.
  pose proof (bifurcation_points r1) as H1.
  pose proof (bifurcation_points r2) as H2.
  destruct (bifurcation_diagram I r1) as [d1 | e]; cbn [returns] in *;
    [| contradiction].
  destruct (bifurcation_diagram I r2) as [d2 | e]; cbn [returns] in *;
    [| contradiction].
  rewrite H1, H2. apply Permutation_flat_map. exact Hperm.
Qed.

End OrderFacts.

(** X13.  Permuting the range of amplitudes permutes the points
    [(F0, theta)] the sweep hands to the plot: the figure does not depend on
    the order of the sweep. *)
Theorem bifurcation_diagram_order_independent :
  (forall (I : Integrator R) (r1 r2 : list R),
      Permutation r1 r2 ->
      returns (bifurcation_diagram I r1)
        (fun d1 =>
           returns (bifurcation_diagram I r2)
             (fun d2 =>
                Permutation (combine (fst d1) (snd d1))
                            (combine (fst d2) (snd d2))))) /\
  (forall (LA : Libm float) (I : Integrator float) (r1 r2 : list float),
      Permutation r1 r2 ->
      returns (bifurcation_diagram I r1)
        (fun d1 =>
           returns (bifurcation_diagram I r2)
             (fun d2 =>
                Permutation (combine (fst d1) (snd d1))
                            (combine (fst d2) (snd d2))))).
Proof.
  split.
  - intros I r1 r2. apply (bifurcation_points_perm I R_grid_200). lia.
  - intros LA I r1 r2. apply (bifurcation_points_perm I b64_grid_200). lia.
Qed.

(** * The figures of [plot_results] and the sweep *)

Lemma strobe_length {X : Type} (xs : list X) (d : X) (offset P : Z) :
  length (strobe xs d offset P)
  = Z.to_nat (py_range_len offset (Z.of_nat (length xs)) P).
Proof. unfold strobe. rewrite length_map, length_seq. reflexivity. Qed.

(** Sampling a prefix that holds every sampled index gives the first
    samples. *)
Lemma strobe_firstn {X : Type} (xs : list X) (d : X) (offset P : Z) (n : nat) :
  (1 <= P)%Z -> (0 <= offset)%Z -> (n <= length xs)%nat ->
  strobe (firstn n xs) d offset P
  = firstn (Z.to_nat (py_range_len offset (Z.of_nat n) P))
           (strobe xs d offset P).
Proof.
  intros HP Hoff Hn. unfold strobe.
  rewrite firstn_length_le by exact Hn.
  assert (Hmono : (Z.to_nat (py_range_len offset (Z.of_nat n) P)
                   <= Z.to_nat (py_range_len offset (Z.of_nat (length xs)) P))%nat).
  { destruct (Nat.eq_dec (Z.to_nat (py_range_len offset (Z.of_nat n) P)) 0)
      as [-> | Hne]; [lia |].
    apply Nat.lt_pred_le. apply range_index_complete; [lia |].
    pose proof (@range_index_lt_stop offset (Z.of_nat n) P
                  (Nat.pred (Z.to_nat (py_range_len offset (Z.of_nat n) P)))
                  ltac:(lia) ltac:(lia)).
    lia. }
  rewrite firstn_map_seq by exact Hmono.
  apply map_ext_in. intros k Hk. apply in_seq in Hk.
  rewrite nth_firstn.
  pose proof (@range_index_lt_stop offset (Z.of_nat n) P k ltac:(lia)
                ltac:(lia)) as Hlt.
  destruct (Nat.ltb_spec (Z.to_nat (offset + Z.of_nat k * P)) n) as [_ | ?];
    [reflexivity | nia].
Qed.

Section PlotFacts.
Context {A : Type} {SA : Scalar A} {LA : Libm A} (I : Integrator A).
Variable len : Z.
Hypothesis Hgrid :
  arange_length (of_int 0) (fmul (of_int 100) T) (fdiv T (of_int 100))
  = Return len.
Hypothesis Hlen : (1000 <= len)%Z.

Lemma plot_results_sizes (F0 : A) :
  returns (plot_results I F0)
    (fun '((ts, ths), (pm, pd), (xs, ys)) =>
       length ts = 1000%nat /\ length ths = 1000%nat /\
       Z.of_nat (length pm) = len /\ Z.of_nat (length pd) = len /\
       Z.of_nat (length xs) = py_range_len 100 len 100 /\
       Z.of_nat (length ys) = py_range_len 100 len 100).
Proof.
  pose proof (simulate_lengths I F0 _ _ Hgrid) as Hrun.
  apply returns_inv in Hrun.
  destruct Hrun as [[[[t theta] theta_dot] theta_mod] [Hrun (Ht & Hth & Hd & Hm)]].
  rewrite (plot_results_on_run I F0 Hrun). cbn [returns].
  rewrite !firstn_length_le by lia. rewrite !strobe_length, Hm, Hd.
  assert (0 <= py_range_len 100 len 100)%Z.
  { rewrite <- arange_len_is_range_len by lia. lia. }
  rewrite !Z2Nat.id by lia. repeat split; reflexivity.
Qed.

End PlotFacts.

(** X14.  The data [plot_results] hands to its three plots: the time
    series has 1000 points; the phase diagram has 10000 points in exact
    arithmetic and 10001 in binary64; the Poincare section has 99 points in
    exact arithmetic and 100 in binary64. *)
Theorem plot_results_figure_sizes :
  (forall (I : Integrator R) (F0 : R),
      returns (plot_results I F0)
        (fun '((ts, ths), (pm, pd), (xs, ys)) =>
           length ts = 1000%nat /\ length ths = 1000%nat /\
           Z.of_nat (length pm) = 10000%Z /\ Z.of_nat (length pd) = 10000%Z /\
           length xs = 99%nat /\ length ys = 99%nat)) /\
  (forall (LA : Libm float) (I : Integrator float) (F0 : float),
      returns (plot_results I F0)
        (fun '((ts, ths), (pm, pd), (xs, ys)) =>
           length ts = 1000%nat /\ length ths = 1000%nat /\
           Z.of_nat (length pm) = 10001%Z /\ Z.of_nat (length pd) = 10001%Z /\
           length xs = 100%nat /\ length ys = 100%nat)).
Proof.
  split.
  - intros I F0.
    pose proof (plot_results_sizes I R_grid_100 ltac:(lia) F0) as Hp.
    revert Hp. apply returns_weaken.
    intros [[[ts ths] [pm pd]] [xs ys]] (H1 & H2 & H3 & H4 & H5 & H6).
    change (py_range_len 100 10000 100) with 99%Z in *.
    split; [exact H1 | split; [exact H2 | split; [exact H3 | ]]].
    split; [exact H4 | split; lia].
  - intros LA I F0.
    pose proof (plot_results_sizes I b64_grid_100 ltac:(lia) F0) as Hp.
    revert Hp. apply returns_weaken.
    intros [[[ts ths] [pm pd]] [xs ys]] (H1 & H2 & H3 & H4 & H5 & H6).
    change (py_range_len 100 10001 100) with 100%Z in *.
    split; [exact H1 | split; [exact H2 | split; [exact H3 | ]]].
    split; [exact H4 | split; lia].
Qed.

(** X15.  In exact arithmetic, for a positive [points_per_period], a
    longer run extends a shorter one: the four arrays of [simulate] for
    [t1 <= t2] periods are the beginnings of the arrays for [t2] periods. *)
Theorem simulate_extends (I : Integrator R) (F0 t1 t2 P : R) :
  (0 < P)%R -> (t1 <= t2)%R ->
  returns (simulate I F0 t1 P)
    (fun '(ta, tha, da, ma) =>
       returns (simulate I F0 t2 P)
         (fun '(tb, thb, db, mb) =>
            (length ta <= length tb)%nat /\
            ta = firstn (length ta) tb /\ tha = firstn (length ta) thb /\
            da = firstn (length ta) db /\ ma = firstn (length ta) mb)).
Proof.
  intros HP Ht.
  assert (HP0 : P <> 0%R) by lra.
  assert (Hn : (Z.to_nat (Zceil (t1 * P)) <= Z.to_nat (Zceil (t2 * P)))%nat).
  { pose proof (Zceil_le (t1 * P) (t2 * P) ltac:(nra)). lia. }
  rewrite !R_simulate by exact HP0. cbv zeta. cbn [returns].
  set (f := fun i : nat => (INR i * (T / P))%R).
  set (n1 := Z.to_nat (Zceil (t1 * P))) in *.
  set (n2 := Z.to_nat (Zceil (t2 * P))) in *.
  rewrite !length_map, !length_seq.
  rewrite (firstn_map_seq f Hn).
  rewrite !firstn_map, <- solution_firstn, (firstn_map_seq f Hn).
  auto.
Qed.

(** X15, at the runs of 100 and of 200 periods. *)
Lemma simulate_extends_witness :
  returns (simulate (A := R) euler 15%R 100%R 100%R)
    (fun '(ta, tha, da, ma) =>
       returns (simulate (A := R) euler 15%R 200%R 100%R)
         (fun '(tb, thb, db, mb) =>
            (length ta <= length tb)%nat /\
            ta = firstn (length ta) tb /\ tha = firstn (length ta) thb /\
            da = firstn (length ta) db /\ ma = firstn (length ta) mb)).
Proof. apply (@simulate_extends euler 15%R 100%R 200%R 100%R); lra. Defined.

Section TwoRuns.
Context {A : Type} {SA : Scalar A} {LA : Libm A} (I : Integrator A).
Variables len1 len2 : Z.
Hypothesis Hg1 :
  arange_length (of_int 0) (fmul (of_int 100) T) (fdiv T (of_int 100))
  = Return len1.
Hypothesis Hg2 :
  arange_length (of_int 0) (fmul (of_int 200) T) (fdiv T (of_int 100))
  = Return len2.
Hypothesis Hlens : (0 < len1 <= len2)%Z.

(** The run of 100 periods is the beginning of the run of 200 periods. *)
Lemma plot_run_prefix (F0 : A) :
  returns (simulate I F0 (of_int 100) (of_int 100))
    (fun '(ta, tha, da, ma) =>
       returns (simulate I F0 (of_int 200) (of_int 100))
         (fun '(tb, thb, db, mb) =>
            ta = firstn (Z.to_nat len1) tb /\
            tha = firstn (Z.to_nat len1) thb /\
            da = firstn (Z.to_nat len1) db /\
            ma = firstn (Z.to_nat len1) mb)).
Proof.
  apply simulate_prefix with
    (ga := map (arange_item (of_int 0) (fadd (of_int 0) (fdiv T (of_int 100)))
                  (fsub (fadd (of_int 0) (fdiv T (of_int 100))) (of_int 0)))
               (seq 0 (Z.to_nat len1)))
    (gb := map (arange_item (of_int 0) (fadd (of_int 0) (fdiv T (of_int 100)))
                  (fsub (fadd (of_int 0) (fdiv T (of_int 100))) (of_int 0)))
               (seq 0 (Z.to_nat len2))).
  - apply np_arange_items; [exact Hg1 | lia].
  - apply np_arange_items; [exact Hg2 | lia].
  - symmetry. apply firstn_map_seq. lia.
Qed.

(** The section [plot_results] draws holds the first samples of the
    stroboscopic section of the run of 200 periods. *)
Lemma plot_section_prefix (F0 : A) :
  returns (plot_results I F0)
    (fun '(_, _, (xs, _)) =>
       returns (simulate I F0 (of_int 200) (of_int 100))
         (fun '(_, _, _, theta_mod) =>
            xs = firstn (Z.to_nat (py_range_len 100 len1 100))
                        (strobe theta_mod (of_int 0) 100 100))).
Proof.
  pose proof (plot_run_prefix F0) as Hpre.
  pose proof (simulate_lengths I F0 _ _ Hg2) as Hl2.
  destruct (simulate I F0 (of_int 100) (of_int 100))
    as [[[[ta tha] da] ma] | e] eqn:Hrun1; cbn [returns] in Hpre;
    [| contradiction].
  rewrite (plot_results_on_run I F0 Hrun1). cbn [returns].
  destruct (simulate I F0 (of_int 200) (of_int 100))
    as [[[[tb thb] db] mb] | e]; cbn [returns] in *; [| contradiction].
  destruct Hpre as (_ & _ & _ & ->). destruct Hl2 as (_ & _ & _ & Hlb).
  rewrite strobe_firstn by lia. rewrite Z2Nat.id by lia. reflexivity.
Qed.

End TwoRuns.

(** X16.  The Poincare section [plot_results] draws for an amplitude holds
    the first samples of the stroboscopic section of the sweep's run for the
    same amplitude.  In exact arithmetic the section and the samples the
    sweep keeps are disjoint and make up the whole section of the long run;
    in binary64 the last point of the plotted section is the first sample the
    sweep keeps. *)
Theorem section_meets_sweep :
  (forall (I : Integrator R) (F0 : R),
      returns (plot_results I F0)
        (fun '(_, _, (xs, _)) =>
           returns (simulate I F0 (of_int 200) (of_int 100))
             (fun '(_, _, _, theta_mod) =>
                xs ++ steady_state I F0
                = strobe theta_mod (of_int 0) 100 100))) /\
  (forall (LA : Libm float) (I : Integrator float) (F0 : float),
      returns (plot_results I F0)
        (fun '(_, _, (xs, _)) =>
           returns (simulate I F0 (of_int 200) (of_int 100))
             (fun '(_, _, _, theta_mod) =>
                xs = firstn 100 (strobe theta_mod (of_int 0) 100 100) /\
                nth_error xs 99 = nth_error (steady_state I F0) 0))).
Proof.
  split.
  - intros I F0.
    pose proof (plot_section_prefix I R_grid_100 R_grid_200 ltac:(lia) F0)
      as Hpre.
    pose proof (steady_state_in_section I R_grid_200 ltac:(lia) F0) as Hss.
    revert Hpre. apply returns_weaken. intros [[series phase] [xs ys]].
    destruct (simulate I F0 (of_int 200) (of_int 100))
      as [[[[tb thb] db] mb] | e]; cbn [returns] in *; [| contradiction].
    intros ->. destruct Hss as [Hsl ->].
    change (py_range_len 100 10000 100) with 99%Z.
    change (py_range_len 100 20000 100) with 199%Z in Hsl.
    rewrite firstn_all2 with (n := 100%nat)
      by (rewrite length_skipn; lia).
    apply firstn_skipn.
  - intros LA I F0.
    pose proof (plot_section_prefix I b64_grid_100 b64_grid_200 ltac:(lia) F0)
      as Hpre.
    pose proof (steady_state_in_section I b64_grid_200 ltac:(lia) F0) as Hss.
    revert Hpre. apply returns_weaken. intros [[series phase] [xs ys]].
    destruct (simulate I F0 (of_int 200) (of_int 100))
      as [[[[tb thb] db] mb] | e]; cbn [returns] in *; [| contradiction].
    intros ->. destruct Hss as [Hsl ->].
    change (py_range_len 100 10001 100) with 100%Z.
    split; [reflexivity |].
    rewrite !nth_error_firstn, nth_error_skipn. reflexivity.
Qed.

(** * The time grid and the script as a whole *)

Section HalfOpen.
Local Open Scope R_scope.

(** X17.  In exact arithmetic, for positive [t_max] and
    [points_per_period], the time grid of [simulate] is not empty, lies in
    [[0, t_max T)] and ends less than one step before [t_max T]: the end time
    itself is never a grid point. *)
Theorem time_grid_half_open (I : Integrator R) (F0 t_max P : R) :
  0 < t_max -> 0 < P ->
  returns (simulate I F0 t_max P)
    (fun '(t, _, _, _) =>
       t <> [] /\
       Forall (fun x => 0 <= x < t_max * T) t /\
       t_max * T - T / P <= last t 0 < t_max * T).
Proof.
  intros Ht HP. pose proof R_T_pos as HT.
  rewrite R_simulate by lra. cbv zeta. cbn [returns].
  set (x := t_max * P).
  assert (Hx : 0 < x) by (unfold x; nra).
  pose proof (Zceil_bound x) as Hce.
  assert (Hpos : (0 < Zceil x)%Z) by (apply lt_IZR; lra).
  assert (Hdt : 0 < T / P) by (apply Rdiv_lt_0_compat; lra).
  assert (Hstop : t_max * T = x * (T / P)) by (unfold x; field; lra).
  set (n := Z.to_nat (Zceil x)).
  assert (Hn : INR n = IZR (Zceil x)).
  { unfold n. rewrite INR_IZR_INZ, Z2Nat.id by lia. reflexivity. }
  assert (Hitem : forall i, (i < n)%nat ->
            0 <= INR i * (T / P) < t_max * T).
  { intros i Hi. pose proof (pos_INR i) as Hi0.
    assert (INR i <= INR n - 1).
    { replace (INR n - 1) with (INR (n - 1)).
      - apply le_INR. lia.
      - rewrite minus_INR by lia. reflexivity. }
    rewrite Hstop. split; [nra |].
    apply Rmult_lt_compat_r; [exact Hdt | lra]. }
  destruct n as [| k] eqn:En; [lia |].
  split; [rewrite seq_S; cbn [Nat.add]; rewrite map_app; intros Habs;
          apply app_eq_nil in Habs; destruct Habs as [_ Habs];
          discriminate Habs |].
  split.
  - apply Forall_forall. intros y Hy. apply in_map_iff in Hy.
    destruct Hy as [i [<- Hi]]. apply in_seq in Hi. apply Hitem. lia.
  - rewrite seq_S. cbn [Nat.add]. rewrite map_app. cbn [map].
    rewrite last_last.
    split; [| apply Hitem; lia].
    rewrite Hstop. rewrite S_INR in Hn.
    replace (x * (T / P) - T / P) with ((x - 1) * (T / P)) by ring.
    apply Rmult_le_compat_r; lra.
Qed.

(** X17, at the run of [plot_results]. *)
Lemma time_grid_half_open_witness :
  returns (simulate (A := R) euler 1%R 100%R 100%R)
    (fun '(t, _, _, _) =>
       t <> [] /\
       Forall (fun x => 0 <= x < 100 * T) t /\
       100 * T - T / 100 <= last t 0 < 100 * T).
Proof. apply (@time_grid_half_open euler 1%R 100%R 100%R); lra. Defined.

End HalfOpen.

Section ScriptResult.
Context {A : Type} {SA : Scalar A} {LA : Libm A} (I : Integrator A).
Variables len100 len200 : Z.
Hypothesis Hg100 :
  arange_length (of_int 0) (fmul (of_int 100) T) (fdiv T (of_int 100))
  = Return len100.
Hypothesis Hg200 :
  arange_length (of_int 0) (fmul (of_int 200) T) (fdiv T (of_int 100))
  = Return len200.
Hypothesis Hlen : (20000 <= len200)%Z.

(** The value of the script: the figures of the two runs, and the dataset
    of the sweep over the default range. *)
Lemma script_result (F0_range : list A) :
  F0_range_default = Return F0_range ->
  returns (script I)
    (fun '(small, chaotic, (F0_vals, theta_poincare)) =>
       plot_results I (of_int 1) = Return small /\
       plot_results I (of_int 15) = Return chaotic /\
       length F0_vals = (length F0_range * 100)%nat /\
       length theta_poincare = (length F0_range * 100)%nat).
Proof.
  intros Hrange. unfold script. rewrite Hrange. cbn [bind].
  assert (Hplot : forall F0, exists fig, plot_results I F0 = Return fig).
  { intros F0. pose proof (simulate_lengths I F0 _ _ Hg100) as Hrun.
    apply returns_inv in Hrun.
    destruct Hrun as [[[[t theta] theta_dot] theta_mod] [Hrun _]].
    rewrite (plot_results_on_run I F0 Hrun). eauto. }
  destruct (Hplot (of_int 1)) as [small Hs]. rewrite Hs. cbn [bind].
  destruct (Hplot (of_int 15)) as [chaotic Hc]. rewrite Hc. cbn [bind].
  pose proof (bifurcation_dataset_lengths I Hg200 Hlen F0_range) as Hd.
  destruct (bifurcation_diagram I F0_range) as [[F0_vals theta_poincare] | e];
    cbn [returns bind] in *; [| contradiction].
  destruct Hd as (H1 & H2 & _).
  split; [reflexivity | split; [reflexivity | split; congruence]].
Qed.

End ScriptResult.

Lemma R_F0_range_default :
  F0_range_default (A := R) =
  Return (map (fun i => (INR i * (2 / 10))%R) (seq 0 101)).
Proof.
  unfold F0_range_default.
  assert (Hstep : (of_decimal (A := R) 2 1 <> 0)%R) by (exact_arith; cbn; lra).
  rewrite R_arange_from_zero by exact Hstep. exact_arith. cbn [pow].
  replace (Zceil (201 / (10 * 1) / (2 / (10 * 1)))) with 101%Z.
  - f_equal. apply map_ext. intros i. f_equal. field.
  - symmetry. apply Zceil_eq. lra.
Qed.

(** X18.  The script as a whole raises nothing, whatever the integrator
    and the C library compute: it returns the figures of [plot_results] for
    [F0 = 1] and [F0 = 15] and a bifurcation dataset of 10100 points (101
    amplitudes, 100 samples each), in exact arithmetic and in binary64. *)
Theorem script_returns_all_figures :
  (forall I : Integrator R,
      returns (script I)
        (fun '(small, chaotic, (F0_vals, theta_poincare)) =>
           plot_results I (of_int 1) = Return small /\
           plot_results I (of_int 15) = Return chaotic /\
           Z.of_nat (length F0_vals) = 10100%Z /\
           Z.of_nat (length theta_poincare) = 10100%Z)) /\
  (forall (LA : Libm float) (I : Integrator float),
      returns (script I)
        (fun '(small, chaotic, (F0_vals, theta_poincare)) =>
           plot_results I (of_int 1) = Return small /\
           plot_results I (of_int 15) = Return chaotic /\
           Z.of_nat (length F0_vals) = 10100%Z /\
           Z.of_nat (length theta_poincare) = 10100%Z)).
Proof.
  split.
  - intros I.
    pose proof (script_result I R_grid_100 R_grid_200 ltac:(lia)
                  R_F0_range_default) as Hs.
    revert Hs. apply returns_weaken.
    intros [[small chaotic] [F0_vals theta_poincare]] (H1 & H2 & H3 & H4).
    rewrite length_map, length_seq in H3, H4.
    split; [exact H1 | split; [exact H2 | split; lia]].
  - intros LA I.
    pose proof b64_F0_range_default as Hr.
    destruct (F0_range_default (A := float)) as [F0_range | e] eqn:Hrange;
      cbn [returns] in Hr; [| contradiction].
    destruct Hr as (Hl & _).
    pose proof (script_result I b64_grid_100 b64_grid_200 ltac:(lia)
                  Hrange) as Hs.
    revert Hs. apply returns_weaken.
    intros [[small chaotic] [F0_vals theta_poincare]] (H1 & H2 & H3 & H4).
    rewrite Hl in H3, H4.
    split; [exact H1 | split; [exact H2 | split; lia]].
Qed.

(** * Binary64: values that are not finite, and a zero step count *)

(** X19.  In binary64 the normalized angle of an angle that is not finite
    (an infinity or NaN, as a diverged integration leaves them) is NaN;
    nothing is raised. *)
Theorem wrap_angle_of_diverged (theta : float) :
  is_finite theta = false -> is_nan (wrap_angle theta) = true.
Proof.
  intros Hx. destruct (b64_not_finite theta Hx) as [-> | [-> | ->]];
    vm_compute; reflexivity.
Qed.

(** X19, at [+ infinity]. *)
Lemma wrap_angle_of_diverged_witness : is_nan (wrap_angle infinity) = true.
Proof. apply (@wrap_angle_of_diverged infinity). reflexivity. Defined.

Section DegenerateRuns.
Context {LA : Libm float} (I : Integrator float).

(** X20.  In binary64 [simulate] raises for a duration that is not finite,
    whatever [F0] and [points_per_period] are: [ValueError] for NaN (the
    length of the range cannot be computed), and an exception of
    [np.arange] for the two infinities. *)
Theorem simulate_rejects_non_finite_duration (F0 P : float) :
  simulate I F0 nan P = Raise ValueError /\
  (exists e, simulate I F0 infinity P = Raise e) /\
  (exists e, simulate I F0 neg_infinity P = Raise e).
Proof.
  split; [| split].
  - apply simulate_raises. apply (@np_arange_raises _ _ _ ValueError).
    unfold arange_length. cbn [fsub fdiv fmul Binary64].
    replace (nan * T - of_int 0)%float with nan by (vm_compute; reflexivity).
    rewrite b64_nan_div. reflexivity.
  - destruct (@b64_arange_length_raises (of_int 0) (fmul infinity T)
                (fdiv T P)) as [e He].
    + cbn [fsub fdiv fmul Binary64]. rewrite div_spec.
      replace (infinity * T - of_int 0)%float with infinity
        by (vm_compute; reflexivity).
      change (Prim2SF infinity) with (S754_infinity false).
      destruct (Prim2SF (T / P)%float) as [s | s | | s mx ex];
        cbn; exact Logic.I.
    + eexists. apply simulate_raises. apply np_arange_raises. exact He.
  - destruct (@b64_arange_length_raises (of_int 0) (fmul neg_infinity T)
                (fdiv T P)) as [e He].
    + cbn [fsub fdiv fmul Binary64]. rewrite div_spec.
      replace (neg_infinity * T - of_int 0)%float with neg_infinity
        by (vm_compute; reflexivity).
      change (Prim2SF neg_infinity) with (S754_infinity true).
      destruct (Prim2SF (T / P)%float) as [s | s | | s mx ex];
        cbn; exact Logic.I.
    + eexists. apply simulate_raises. apply np_arange_raises. exact He.
Qed.

(** X21.  In binary64 [points_per_period = 0] raises no
    [ZeroDivisionError]: the step is [inf], and for every duration with
    [0 < t_max T < inf] the run consists of the initial state alone. *)
Theorem simulate_zero_points_per_period (F0 t_max : float) :
  (0 <? t_max * T)%float = true -> (t_max * T <? infinity)%float = true ->
  simulate I F0 t_max (of_int 0) =
  Return ([0%float], [0%float], [0%float], [0%float]).
Proof.
  intros Hpos Hfin.
  rewrite (simulate_on_grid I F0 _ _ (b64_zero_ppp_grid Hpos Hfin)).
  reflexivity.
Qed.

End DegenerateRuns.

(** X21, at the duration of [plot_results]. *)
Lemma simulate_zero_points_per_period_witness :
  simulate (A := float) (LA := taylor_libm) euler
    (of_int 15) (of_int 100) (of_int 0)
  = Return ([0%float], [0%float], [0%float], [0%float]).
Proof.
  apply (@simulate_zero_points_per_period taylor_libm euler
           (of_int 15) (of_int 100)); vm_compute; reflexivity.
Defined.

(** * Orbits *)

Lemma R_fpow_2 (x : R) : fpow x 2 = (x * x)%R.
Proof. change (fpow x 2) with (x * (x * 1))%R. ring. Qed.

Lemma R_fpow_3 (x : R) : fpow x 3 = (x ^ 3)%R.
Proof. reflexivity. Qed.

Section Derivatives.
Local Open Scope R_scope.

Lemma derivable_pt_lim_cos_lin (a w s : R) :
  derivable_pt_lim (fun u => a * cos (w * u)) s (- a * w * sin (w * s)).
Proof.
  apply derivable_pt_lim_ext with
    (f := mult_real_fct a (comp cos (mult_real_fct w id))).
  { intros z. reflexivity. }
  replace (- a * w * sin (w * s)) with (a * (- sin (w * s) * (w * 1))) by ring.
  apply derivable_pt_lim_scal.
  apply (derivable_pt_lim_comp (mult_real_fct w id) cos).
  - apply derivable_pt_lim_scal, derivable_pt_lim_id.
  - apply derivable_pt_lim_cos.
Qed.

Lemma derivable_pt_lim_sin_lin (a w s : R) :
  derivable_pt_lim (fun u => a * sin (w * u)) s (a * w * cos (w * s)).
Proof.
  apply derivable_pt_lim_ext with
    (f := mult_real_fct a (comp sin (mult_real_fct w id))).
  { intros z. reflexivity. }
  replace (a * w * cos (w * s)) with (a * (cos (w * s) * (w * 1))) by ring.
  apply derivable_pt_lim_scal.
  apply (derivable_pt_lim_comp (mult_real_fct w id) sin).
  - apply derivable_pt_lim_scal, derivable_pt_lim_id.
  - apply derivable_pt_lim_sin.
Qed.

End Derivatives.

Section ExactOrbits.
Local Open Scope R_scope.

(** The distance from the origin on the circle of radius [r]. *)
Lemma circle_radius (r a : R) :
  0 < r -> R_sqrt.sqrt ((r * cos a) * (r * cos a) + (r * sin a) * (r * sin a)) = r.
Proof.
  intros Hr.
  replace ((r * cos a) * (r * cos a) + (r * sin a) * (r * sin a))
    with ((r * r) * ((sin a)² + (cos a)²)) by (unfold Rsqr; ring).
  rewrite sin2_cos2, Rmult_1_r. apply sqrt_square. lra.
Qed.

Lemma orbital_motion_field (G M t x y vx vy : R) :
  Orbits.orbital_motion t (x, y, vx, vy) G M =
  (vx, vy, - (G * M / R_sqrt.sqrt (x * x + y * y) ^ 3) * x,
           - (G * M / R_sqrt.sqrt (x * x + y * y) ^ 3) * y).
Proof.
  unfold Orbits.orbital_motion. rewrite !R_fpow_2, !R_fpow_3. reflexivity.
Qed.

(** The circular orbit of radius [r] solves the system. *)
Lemma circular_orbit_solution (G M r s : R) :
  0 < G * M -> 0 < r ->
  let w := R_sqrt.sqrt (G * M / r ^ 3) in
  let x := fun u => r * cos (w * u) in
  let y := fun u => r * sin (w * u) in
  let vx := fun u => - (r * w) * sin (w * u) in
  let vy := fun u => (r * w) * cos (w * u) in
  let d := Orbits.orbital_motion s (x s, y s, vx s, vy s) G M in
  derivable_pt_lim x s (fst (fst (fst d))) /\
  derivable_pt_lim y s (snd (fst (fst d))) /\
  derivable_pt_lim vx s (snd (fst d)) /\
  derivable_pt_lim vy s (snd d).
Proof.
  intros HGM Hr w x y vx vy d.
  assert (Hq : 0 < G * M / r ^ 3).
  { apply Rdiv_lt_0_compat; [exact HGM | apply pow_lt; exact Hr]. }
  assert (Hw2 : w * w = G * M / r ^ 3) by (apply sqrt_sqrt; lra).
  subst d x y vx vy. cbv beta. rewrite orbital_motion_field. cbn [fst snd].
  rewrite circle_radius by exact Hr. rewrite <- Hw2.
  repeat split.
  - replace (- (r * w) * sin (w * s)) with (- r * w * sin (w * s)) by ring.
    apply derivable_pt_lim_cos_lin.
  - apply derivable_pt_lim_sin_lin.
  - replace (- (w * w) * (r * cos (w * s)))
      with (- (r * w) * w * cos (w * s)) by ring.
    apply derivable_pt_lim_sin_lin.
  - replace (- (w * w) * (r * sin (w * s)))
      with (- (r * w) * w * sin (w * s)) by ring.
    apply derivable_pt_lim_cos_lin.
Qed.

End ExactOrbits.

Section ExactOrbits2.
Local Open Scope R_scope.

Lemma circular_orbit_derivative (G M r s : R) :
  0 < G * M -> 0 < r ->
  let w := R_sqrt.sqrt (G * M / r ^ 3) in
  derivative4 (circular_orbit r w) s
    (Orbits.orbital_motion s (circular_orbit r w s) G M).
Proof.
  intros HGM Hr w. exact (circular_orbit_solution s HGM Hr).
Qed.

Lemma R_Orbits_G : Orbits.G (A := R) = 1.
Proof. unfold Orbits.G. exact_arith. cbn. field. Qed.

Lemma R_Orbits_M : Orbits.M (A := R) = 1.
Proof. unfold Orbits.M. exact_arith. cbn. field. Qed.

(** X22.  In exact arithmetic, for every radius [r > 0], the circular
    orbit of radius [r] with the angular velocity [sqrt(G M / r^3)] starts in
    the initial state of the script, solves the system [orbital_motion]
    defines at every time, returns to each of its states after the period
    [2 pi / w], crosses [y = 0] upwards there (where [event_full_orbit]
    vanishes), and its period satisfies [period^2 = theoretical_slope r^3],
    Kepler's third law with the slope [4 pi^2] of the script. *)
Theorem circular_orbit_obeys_kepler (r s : R) :
  0 < r ->
  let w := R_sqrt.sqrt (Orbits.G * Orbits.M / r ^ 3) in
  let period := 2 * PI / w in
  circular_orbit r w 0 = Orbits.state0 r /\
  derivative4 (circular_orbit r w) s
    (Orbits.orbital_motion s (circular_orbit r w s) Orbits.G Orbits.M) /\
  circular_orbit r w (s + period) = circular_orbit r w s /\
  Orbits.event_full_orbit period (circular_orbit r w period) = 0 /\
  0 < snd (circular_orbit r w period) /\
  period ^ 2 = Orbits.theoretical_slope * r ^ 3.
Proof.
  intros Hr w period.
  assert (HGM : 0 < Orbits.G * Orbits.M)
    by (rewrite R_Orbits_G, R_Orbits_M; lra).
  assert (Hq : 0 < Orbits.G * Orbits.M / r ^ 3).
  { apply Rdiv_lt_0_compat; [exact HGM | apply pow_lt; exact Hr]. }
  assert (Hw : 0 < w) by (apply sqrt_lt_R0; exact Hq).
  assert (Hw2 : w * w = Orbits.G * Orbits.M / r ^ 3)
    by (apply sqrt_sqrt; lra).
  assert (Hwp : w * period = 2 * PI) by (unfold period; field; lra).
  split; [| split; [| split; [| split; [| split]]]].
  - unfold circular_orbit, Orbits.state0. exact_arith.
    rewrite Rmult_0_r, cos_0, sin_0.
    f_equal; [f_equal; [f_equal |] |].
    + ring.
    + cbn [pow]. field.
    + cbn [pow]. field.
    + rewrite Rmult_1_r. symmetry. apply sqrt_lem_1.
      * left. apply Rdiv_lt_0_compat; assumption.
      * left. apply Rmult_lt_0_compat; assumption.
      * replace (r * w * (r * w)) with (r * r * (w * w)) by ring.
        rewrite Hw2. field. lra.
  - apply circular_orbit_derivative; assumption.
  - unfold circular_orbit.
    replace (w * (s + period)) with (w * s + 2 * PI)
      by (rewrite Rmult_plus_distr_l, Hwp; ring).
    rewrite cos_plus, sin_plus, cos_2PI, sin_2PI.
    repeat f_equal; ring.
  - unfold Orbits.event_full_orbit, circular_orbit.
    rewrite Hwp, sin_2PI. ring.
  - unfold circular_orbit. cbn [snd]. rewrite Hwp, cos_2PI.
    rewrite Rmult_1_r. apply Rmult_lt_0_compat; assumption.
  - unfold Orbits.theoretical_slope. exact_arith. rewrite R_fpow_2.
    unfold period.
    replace ((2 * PI / w) ^ 2) with (4 * (PI * PI) / (w * w))
      by (field; lra).
    rewrite Hw2, R_Orbits_G, R_Orbits_M. field. lra.
Qed.

(** X22, at the first radius of the script, [r = 1]. *)
Lemma circular_orbit_obeys_kepler_witness :
  (2 * PI / R_sqrt.sqrt (Orbits.G * Orbits.M / 1 ^ 3)) ^ 2
  = Orbits.theoretical_slope * 1 ^ 3.
Proof.
  exact (proj2 (proj2 (proj2 (proj2 (proj2
    (@circular_orbit_obeys_kepler 1 0 Rlt_0_1)))))).
Defined.

Lemma equations_is_orbital_motion (t : R) (state : R * R * R * R) :
  Payload.equations t state =
  Orbits.orbital_motion t state Payload.G Payload.M.
Proof.
  destruct state as [[[x y] vx] vy].
  unfold Payload.equations, Orbits.orbital_motion. exact_arith.
  f_equal; [f_equal |]; unfold Rdiv; ring.
Qed.

(** Along a solution that is not at the origin, angular momentum and energy
    are constant. *)
Lemma orbital_motion_conserves (c : R -> R * R * R * R) (s G M : R) :
  0 < fst (fst (fst (c s))) * fst (fst (fst (c s)))
      + snd (fst (fst (c s))) * snd (fst (fst (c s))) ->
  derivative4 c s (Orbits.orbital_motion s (c s) G M) ->
  derivable_pt_lim (fun u => angular_momentum (c u)) s 0 /\
  derivable_pt_lim (fun u => orbital_energy G M (c u)) s 0.
Proof.
  intros Hpos. unfold derivative4.
  set (x := fun u => fst (fst (fst (c u)))).
  set (y := fun u => snd (fst (fst (c u)))).
  set (vx := fun u => snd (fst (c u))).
  set (vy := fun u => snd (c u)).
  assert (Hc : forall u, c u = (x u, y u, vx u, vy u)).
  { intros u. unfold x, y, vx, vy. destruct (c u) as [[[? ?] ?] ?].
    reflexivity. }
  rewrite (Hc s), orbital_motion_field. cbn [fst snd].
  change (fst (fst (fst (c s)))) with (x s) in Hpos.
  change (snd (fst (fst (c s)))) with (y s) in Hpos.
  set (q := x s * x s + y s * y s) in *.
  set (r := R_sqrt.sqrt q).
  assert (Hr : 0 < r) by (apply sqrt_lt_R0; exact Hpos).
  set (k := G * M / r ^ 3).
  intros (Hx & Hy & Hvx & Hvy).
  split.
  - apply derivable_pt_lim_ext with
      (f := minus_fct (mult_fct x vy) (mult_fct y vx)).
    { intros u. rewrite (Hc u). reflexivity. }
    replace 0 with ((vx s * vy s + x s * (- k * y s))
                    - (vy s * vx s + y s * (- k * x s))) by ring.
    apply derivable_pt_lim_minus; apply derivable_pt_lim_mult; assumption.
  - apply derivable_pt_lim_ext with
      (f := minus_fct
              (mult_real_fct (1 / 2)
                 (plus_fct (mult_fct vx vx) (mult_fct vy vy)))
              (div_fct (fct_cte (G * M))
                 (comp R_sqrt.sqrt (plus_fct (mult_fct x x) (mult_fct y y))))).
    { intros u. rewrite (Hc u). reflexivity. }
    replace 0 with
      (1 / 2 * ((- k * x s * vx s + vx s * (- k * x s))
                + (- k * y s * vy s + vy s * (- k * y s)))
       - (0 * r - (/ (2 * r) * ((vx s * x s + x s * vx s)
                                + (vy s * y s + y s * vy s))) * (G * M))
         / (r)²).
    2:{ unfold k, Rsqr. field. lra. }
    apply derivable_pt_lim_minus.
    + apply derivable_pt_lim_scal.
      apply derivable_pt_lim_plus; apply derivable_pt_lim_mult; assumption.
    + apply (derivable_pt_lim_div (fct_cte (G * M))
               (comp R_sqrt.sqrt (plus_fct (mult_fct x x) (mult_fct y y)))).
      * apply derivable_pt_lim_const.
      * apply (derivable_pt_lim_comp
                 (plus_fct (mult_fct x x) (mult_fct y y)) R_sqrt.sqrt).
        -- apply derivable_pt_lim_plus; apply derivable_pt_lim_mult;
             assumption.
        -- apply derivable_pt_lim_sqrt. exact Hpos.
      * unfold comp, plus_fct, mult_fct. fold q. fold r. lra.
Qed.

(** X23.  In exact arithmetic, along every trajectory away from the
    origin whose derivative is what [orbital_motion] (respectively
    [equations], with the constants of its script) returns, the angular
    momentum [x vy - y vx] and the energy [(vx^2 + vy^2)/2 - G M / r] are
    conserved. *)
Theorem orbits_conserve_momentum_and_energy
  (c : R -> R * R * R * R) (s G M : R) :
  0 < fst (fst (fst (c s))) * fst (fst (fst (c s)))
      + snd (fst (fst (c s))) * snd (fst (fst (c s))) ->
  (derivative4 c s (Orbits.orbital_motion s (c s) G M) ->
   derivable_pt_lim (fun u => angular_momentum (c u)) s 0 /\
   derivable_pt_lim (fun u => orbital_energy G M (c u)) s 0) /\
  (derivative4 c s (Payload.equations s (c s)) ->
   derivable_pt_lim (fun u => angular_momentum (c u)) s 0 /\
   derivable_pt_lim (fun u => orbital_energy Payload.G Payload.M (c u)) s 0).
Proof.
  intros Hpos. split.
  - apply orbital_motion_conserves. exact Hpos.
  - rewrite equations_is_orbital_motion.
    apply orbital_motion_conserves. exact Hpos.
Qed.

End ExactOrbits2.

(** X23, at the circular orbit of radius 1 for [G = M = 1]. *)
Lemma orbits_conserve_momentum_and_energy_witness :
  derivable_pt_lim
    (fun u => angular_momentum
                (circular_orbit 1 (R_sqrt.sqrt (1 * 1 / 1 ^ 3)) u)) 0%R 0%R /\
  derivable_pt_lim
    (fun u => orbital_energy 1 1
                (circular_orbit 1 (R_sqrt.sqrt (1 * 1 / 1 ^ 3)) u)) 0%R 0%R.
Proof.
  refine (proj1 (@orbits_conserve_momentum_and_energy
                   (circular_orbit 1 (R_sqrt.sqrt (1 * 1 / 1 ^ 3))) 0%R 1%R 1%R _)
                _).
  - unfold circular_orbit. cbn [fst snd].
    rewrite Rmult_0_r, cos_0, sin_0. lra.
  - apply (@circular_orbit_derivative 1%R 1%R 1%R 0%R); lra.
Defined.

(** * Escape velocities *)

Section ExactEscape.
Local Open Scope R_scope.

Lemma R_Escape_G_pos : 0 < Escape.G (A := R).
Proof.
  unfold Escape.G. exact_arith. apply Rdiv_lt_0_compat; [lra |].
  apply pow_lt. lra.
Qed.

(** X24.  In exact arithmetic, for planets of positive mass and radius,
    the dictionary of escape velocities has the keys of [planets], in their
    order, and each velocity [v] (in km/s) is positive and is the speed of
    zero total energy at the surface: [(1000 v)^2 / 2 = G mass / radius]. *)
Theorem escape_velocity_has_zero_energy
  (planets : list (string * (R * R))) :
  Forall (fun item => 0 < fst (snd item) /\ 0 < snd (snd item)) planets ->
  map fst (Escape.velocities_of planets) = map fst planets /\
  Forall2 (fun item entry =>
             let '(mass, radius) := snd item in
             let v := snd entry in
             0 < v /\
             orbital_energy Escape.G mass (radius, 0, 0, 1000 * v) = 0)
          planets (Escape.velocities_of planets).
Proof.
  intros Hpos. pose proof R_Escape_G_pos as HG.
  unfold Escape.velocities_of. split.
  - rewrite map_map. apply map_ext. intros [planet [mass radius]]. reflexivity.
  - induction Hpos as [| [planet [mass radius]] rest [Hm Hr] _ IH];
      cbn [map]; constructor; [| exact IH].
    cbn [fst snd] in *. exact_arith.
    set (q := 2 * Escape.G * mass / radius).
    assert (Hq : 0 < q).
    { unfold q. apply Rdiv_lt_0_compat; [| exact Hr].
      apply Rmult_lt_0_compat; [lra | exact Hm]. }
    assert (Hs : 0 < R_sqrt.sqrt q) by (apply sqrt_lt_R0; exact Hq).
    split; [apply Rdiv_lt_0_compat; lra |].
    unfold orbital_energy.
    replace (radius * radius + 0 * 0) with (radius * radius) by ring.
    rewrite sqrt_square by lra.
    replace (1000 * (R_sqrt.sqrt q / 1000)) with (R_sqrt.sqrt q) by field.
    replace (0 * 0 + R_sqrt.sqrt q * R_sqrt.sqrt q) with q
      by (rewrite sqrt_sqrt by lra; ring).
    unfold q. field. lra.
Qed.

(** X24, at the three planets of the script. *)
Lemma escape_velocity_has_zero_energy_witness :
  map fst (Escape.velocities (A := R)) = ["Earth"; "Mars"; "Jupiter"]%string.
Proof.
  refine (proj1 (@escape_velocity_has_zero_energy Escape.planets _)).
  unfold Escape.planets. exact_arith.
  repeat constructor; cbn [fst snd]; lra.
Defined.

End ExactEscape.

(** * Waves *)

Section ExactWaves.
Local Open Scope R_scope.

Lemma sqrt_millionth : R_sqrt.sqrt (1 / 10 ^ 6) = 1 / 10 ^ 3.
Proof. apply sqrt_lem_1; [lra | lra | field]. Qed.

Lemma wave_from_source_bound (x0 y0 X Y t : R) :
  let r := R_sqrt.sqrt ((X - x0) * (X - x0) + (Y - y0) * (Y - y0)) + 1 / 10 ^ 6 in
  0 < r /\ 0 < R_sqrt.sqrt r /\
  Rabs (Waves.wave_from_source x0 y0 X Y t) <= 1000.
Proof.
  intros r.
  assert (Hs : 0 <= R_sqrt.sqrt ((X - x0) * (X - x0) + (Y - y0) * (Y - y0)))
    by apply sqrt_pos.
  assert (Hr : 1 / 10 ^ 6 <= r) by (unfold r; lra).
  assert (Hr0 : 0 < r) by lra.
  assert (Hsr : 1 / 10 ^ 3 <= R_sqrt.sqrt r).
  { rewrite <- sqrt_millionth. apply sqrt_le_1_alt. exact Hr. }
  assert (Hsr0 : 0 < R_sqrt.sqrt r) by lra.
  split; [exact Hr0 |]. split; [exact Hsr0 |].
  unfold Waves.wave_from_source, Waves.A. rewrite !R_fpow_2. exact_arith.
  fold r. rewrite Rabs_mult.
  assert (Hinv : Rabs (1 / R_sqrt.sqrt r) <= 1000).
  { rewrite Rabs_pos_eq by (apply Rlt_le, Rdiv_lt_0_compat; lra).
    apply Rmult_le_reg_r with (R_sqrt.sqrt r); [exact Hsr0 |].
    unfold Rdiv. rewrite Rmult_assoc, Rinv_l by lra. lra. }
  pose proof (COS_bound (Waves.k * r - Waves.omega * t + Waves.phi)) as [Hc1 Hc2].
  assert (Hcos : Rabs (cos (Waves.k * r - Waves.omega * t + Waves.phi)) <= 1)
    by (apply Rabs_le; lra).
  pose proof (Rabs_pos (1 / R_sqrt.sqrt r)).
  pose proof (Rabs_pos (cos (Waves.k * r - Waves.omega * t + Waves.phi))).
  nra.
Qed.

Lemma total_wave_at_bound (srcs : list (R * R)) (X Y : R) :
  Rabs (Waves.total_wave_at srcs X Y) <= 1000 * INR (length srcs).
Proof.
  unfold Waves.total_wave_at.
  assert (Hgen : forall acc,
    Rabs (fold_left
            (fun a src => fadd a (Waves.wave_from_source (fst src) (snd src) X Y Waves.t))
            srcs acc) <= Rabs acc + 1000 * INR (length srcs)).
  { induction srcs as [| [x0 y0] rest IH]; intros acc.
    - cbn [fold_left length INR]. lra.
    - cbn [fold_left fst snd]. eapply Rle_trans; [apply IH |].
      change (length ((x0, y0) :: rest)) with (S (length rest)).
      rewrite S_INR. exact_arith.
      pose proof (Rabs_triang acc (Waves.wave_from_source x0 y0 X Y Waves.t)).
      pose proof (proj2 (proj2 (wave_from_source_bound x0 y0 X Y Waves.t))).
      lra. }
  eapply Rle_trans; [apply Hgen |]. exact_arith. rewrite Rabs_R0. lra.
Qed.

End ExactWaves.

Section LinspaceFacts.
Context {A : Type} {SA : Scalar A}.

(** [np.linspace] returns [num] elements. *)
Lemma np_linspace_length (start stop : A) (num : Z) (endpoint : bool) :
  (0 <= num)%Z ->
  returns (np_linspace start stop num endpoint)
          (fun y => length y = Z.to_nat num).
Proof.
  intros Hnum. unfold np_linspace.
  destruct (Z.ltb_spec num 0) as [? | _]; [lia |]. cbn [returns].
  set (y0 := map (fun i => of_int (Z.of_nat i)) (seq 0 (Z.to_nat num))).
  set (y1 := if (0 <? (if endpoint then num - 1 else num))%Z then _ else _).
  assert (Hy1 : length y1 = Z.to_nat num).
  { unfold y1.
    destruct (0 <? (if endpoint then num - 1 else num))%Z;
      [destruct (is_nonzero _) |];
      rewrite length_map; unfold y0; rewrite length_map, length_seq;
      reflexivity. }
  destruct (endpoint && (1 <? num)%Z) eqn:Hend.
  - apply andb_true_iff in Hend. destruct Hend as [_ Hgt].
    apply Z.ltb_lt in Hgt.
    rewrite length_app, removelast_firstn_len, length_firstn, length_map, Hy1.
    cbn [length]. lia.
  - rewrite length_map. exact Hy1.
Qed.

End LinspaceFacts.

Section ExactWaves2.
Local Open Scope R_scope.

(** Without the end point the grid is [start + i (stop - start) / num]. *)
Lemma R_linspace_open (start stop : R) (num : Z) :
  (0 < num)%Z ->
  np_linspace start stop num false =
  Return (map (fun i => start + INR i * (stop - start) / IZR num)
              (seq 0 (Z.to_nat num))).
Proof.
  intros Hnum. unfold np_linspace.
  destruct (Z.ltb_spec num 0) as [? | _]; [lia |].
  destruct (Z.ltb_spec 0 num) as [_ | ?]; [| lia].
  cbn [andb]. f_equal. rewrite !map_map.
  assert (Hn : IZR num <> 0) by (apply not_0_IZR; lia).
  exact_arith.
  destruct (Rnonzero_spec ((stop - start) / IZR num)) as [_ | Hz];
    rewrite map_map; apply map_ext; intros i; rewrite <- INR_IZR_INZ.
  - field. exact Hn.
  - field. exact Hn.
Qed.

Lemma R_polygon_vertices (n : Z) (radius : R) :
  (0 < n)%Z ->
  Waves.polygon_vertices n radius =
  Return (map (fun i => (radius * cos (INR i * (2 * PI / IZR n)),
                         radius * sin (INR i * (2 * PI / IZR n))))
              (seq 0 (Z.to_nat n))).
Proof.
  intros Hn. unfold Waves.polygon_vertices.
  rewrite R_linspace_open by exact Hn. cbn [bind]. f_equal.
  rewrite map_map. apply map_ext. intros i. exact_arith.
  assert (Hn0 : IZR n <> 0) by (apply not_0_IZR; lia).
  replace (0 + INR i * (2 * PI - 0) / IZR n) with (INR i * (2 * PI / IZR n))
    by (field; exact Hn0).
  reflexivity.
Qed.

Lemma chord_sq (radius a c : R) :
  (radius * cos c - radius * cos a) * (radius * cos c - radius * cos a)
  + (radius * sin c - radius * sin a) * (radius * sin c - radius * sin a)
  = 2 * (radius * radius) * (1 - cos (c - a)).
Proof.
  rewrite cos_minus.
  pose proof (sin2_cos2 a) as Ha. pose proof (sin2_cos2 c) as Hc.
  unfold Rsqr in Ha, Hc. nra.
Qed.

(** X25.  In exact arithmetic [polygon_vertices] raises [ValueError] for a
    negative [n], returns no vertex for [n = 0], and for [n >= 1] returns
    the [n] vertices of a regular polygon: the [i]-th at the angle
    [2 pi i / n] on the circle of the given radius, starting at
    [(radius, 0)], every side (the closing one included) of the same
    length. *)
Theorem polygon_vertices_regular :
  (forall (n : Z) (radius : R), (n < 0)%Z ->
      Waves.polygon_vertices n radius = Raise ValueError) /\
  (forall radius : R, Waves.polygon_vertices 0 radius = Return []) /\
  (forall (n : Z) (radius : R), (0 < n)%Z ->
      returns (Waves.polygon_vertices n radius)
        (fun vs =>
           length vs = Z.to_nat n /\
           nth_error vs 0 = Some (radius, 0) /\
           Forall (fun v => fst v * fst v + snd v * snd v = radius * radius)
                  vs /\
           forall i, (i < Z.to_nat n)%nat ->
             let v := nth i vs (0, 0) in
             let v' := nth (S i mod Z.to_nat n) vs (0, 0) in
             v = (radius * cos (2 * PI * INR i / IZR n),
                  radius * sin (2 * PI * INR i / IZR n)) /\
             (fst v' - fst v) * (fst v' - fst v)
             + (snd v' - snd v) * (snd v' - snd v)
             = 2 * (radius * radius) * (1 - cos (2 * PI / IZR n)))).
Proof.
  split; [| split].
  - intros n radius Hn. unfold Waves.polygon_vertices, np_linspace.
    destruct (Z.ltb_spec n 0) as [_ | ?]; [reflexivity | lia].
  - intros radius. reflexivity.
  - intros n radius Hn. rewrite R_polygon_vertices by exact Hn.
    cbn [returns].
    set (d := 2 * PI / IZR n).
    set (vert := fun i : nat => (radius * cos (INR i * d),
                                 radius * sin (INR i * d))).
    assert (Hn0 : IZR n <> 0) by (apply not_0_IZR; lia).
    assert (Hnat : (0 < Z.to_nat n)%nat) by lia.
    assert (HINR : INR (Z.to_nat n) = IZR n)
      by (rewrite INR_IZR_INZ, Z2Nat.id by lia; reflexivity).
    split; [rewrite length_map, length_seq; reflexivity |].
    split.
    { destruct (Z.to_nat n) as [| k]; [lia |]. cbn [seq map nth_error].
      unfold vert. cbn [INR]. rewrite Rmult_0_l, cos_0, sin_0.
      do 2 f_equal; ring. }
    split.
    { apply Forall_forall. intros v Hv. apply in_map_iff in Hv.
      destruct Hv as [i [<- _]]. unfold vert. cbn [fst snd].
      pose proof (sin2_cos2 (INR i * d)) as Hsc. unfold Rsqr in Hsc. nra. }
    intros i Hi. cbv zeta.
    assert (Hmod : (S i mod Z.to_nat n < Z.to_nat n)%nat)
      by (apply Nat.mod_upper_bound; lia).
    change (0, 0) with (0%R, 0%R).
    rewrite !nth_map_seq by assumption.
    unfold vert. cbn [fst snd]. split.
    { assert (Ha : INR i * d = 2 * PI * INR i / IZR n)
        by (unfold d; field; exact Hn0).
      rewrite Ha. reflexivity. }
    rewrite chord_sq. f_equal. f_equal.
    destruct (Nat.eq_dec (S i) (Z.to_nat n)) as [Heq | Hne].
    + rewrite Heq, Nat.Div0.mod_same. cbn [INR]. rewrite Rmult_0_l.
      replace (0 - INR i * d) with (d - INR (S i) * d)
        by (rewrite S_INR; ring).
      rewrite Heq, HINR.
      replace (d - IZR n * d) with (d - 2 * PI) by (unfold d; field; exact Hn0).
      replace (d - 2 * PI) with (d + IZR (-1) * (2 * PI)) by ring.
      apply cos_turns.
    + rewrite Nat.mod_small by lia. rewrite S_INR. f_equal. ring.
Qed.

End ExactWaves2.

Section ExactWavesBound.
Local Open Scope R_scope.

(** X26.  In exact arithmetic the divisor [sqrt r] of [wave_from_source]
    is positive (the [1e-6] does avoid the division by zero), the wave of one
    source is at most 1000 in absolute value, and [total_wave] is a grid of
    300 rows of 300 values, each at most 80000 in absolute value. *)
Theorem interference_pattern_bounded :
  (forall x0 y0 X Y t : R,
      0 < R_sqrt.sqrt
            (R_sqrt.sqrt ((X - x0) * (X - x0) + (Y - y0) * (Y - y0))
             + 1 / 10 ^ 6) /\
      Rabs (Waves.wave_from_source x0 y0 X Y t) <= 1000) /\
  returns (Waves.total_wave (F := R))
    (fun rows =>
       length rows = 300%nat /\
       Forall (fun row =>
                 length row = 300%nat /\
                 Forall (fun v => Rabs v <= 80000) row) rows).
Proof.
  split.
  - intros x0 y0 X Y t.
    pose proof (wave_from_source_bound x0 y0 X Y t) as (_ & H1 & H2).
    split; assumption.
  - unfold Waves.total_wave, Waves.x_range, Waves.y_range, Waves.sources,
      Waves.N_sources.
    pose proof (np_linspace_length (of_int (-10)) (of_int 10) (A := R)
                  true (num := 300) ltac:(lia)) as Hx.
    apply returns_inv in Hx. destruct Hx as [xs [-> Hxs]]. cbn [bind].
    rewrite R_polygon_vertices by lia. cbn [bind returns].
    set (srcs := map _ (seq 0 (Z.to_nat 80))).
    assert (Hsrcs : length srcs = 80%nat)
      by (unfold srcs; rewrite length_map, length_seq; reflexivity).
    split; [rewrite length_map; exact Hxs |].
    apply Forall_forall. intros row Hrow. apply in_map_iff in Hrow.
    destruct Hrow as [Y [<- _]]. split; [rewrite length_map; exact Hxs |].
    apply Forall_forall. intros v Hv. apply in_map_iff in Hv.
    destruct Hv as [X [<- _]].
    pose proof (total_wave_at_bound srcs X Y) as Hb.
    rewrite Hsrcs in Hb.
    replace (1000 * INR 80) with 80000 in Hb
      by (rewrite INR_IZR_INZ; cbn; lra).
    exact Hb.
Qed.

End ExactWavesBound.

Section ExactWaves3.
Local Open Scope R_scope.

Lemma Rlist_sum_perm (xs ys : list R) :
  Permutation xs ys -> Rlist_sum xs = Rlist_sum ys.
Proof.
  unfold Rlist_sum.
  induction 1 as [| x xs ys _ IH | x y xs | xs ys zs _ IH1 _ IH2];
    cbn [fold_right].
  - reflexivity.
  - rewrite IH. reflexivity.
  - ring.
  - congruence.
Qed.

Lemma fold_left_Rlist_sum {X : Type} (g : X -> R) (xs : list X) :
  forall acc,
    fold_left (fun a x => a + g x) xs acc = acc + Rlist_sum (map g xs).
Proof.
  unfold Rlist_sum.
  induction xs as [| x rest IH]; intros acc; cbn [fold_left map fold_right].
  - ring.
  - rewrite IH. ring.
Qed.

(** One element of the pattern as a sum over the sources. *)
Lemma total_wave_at_sum (srcs : list (R * R)) (X Y : R) :
  Waves.total_wave_at srcs X Y =
  Rlist_sum (map (fun src => Waves.wave_from_source (fst src) (snd src) X Y
                               Waves.t) srcs).
Proof.
  unfold Waves.total_wave_at. exact_arith.
  rewrite (fold_left_Rlist_sum
             (fun src => Waves.wave_from_source (fst src) (snd src) X Y Waves.t)).
  lra.
Qed.

Lemma wave_from_source_mirror (x0 y0 X Y t : R) :
  Waves.wave_from_source x0 (- y0) X (- Y) t =
  Waves.wave_from_source x0 y0 X Y t.
Proof.
  unfold Waves.wave_from_source. rewrite !R_fpow_2. exact_arith.
  replace ((- Y - - y0) * (- Y - - y0)) with ((Y - y0) * (Y - y0)) by ring.
  reflexivity.
Qed.

(** With the end point the grid is [start + i (stop - start) / (num - 1)]. *)
Lemma R_linspace_closed (start stop : R) (num : Z) :
  (1 < num)%Z ->
  np_linspace start stop num true =
  Return (map (fun i => start + INR i * (stop - start) / IZR (num - 1))
              (seq 0 (Z.to_nat num))).
Proof.
  intros Hnum. unfold np_linspace.
  destruct (Z.ltb_spec num 0) as [? | _]; [lia |].
  destruct (Z.ltb_spec 0 (num - 1)) as [_ | ?]; [| lia].
  destruct (Z.ltb_spec 1 num) as [_ | ?]; [| lia].
  cbn [andb]. f_equal.
  assert (Hn : IZR (num - 1) <> 0) by (apply not_0_IZR; lia).
  set (f := fun i : nat => start + INR i * (stop - start) / IZR (num - 1)).
  assert (Hlast : removelast (map f (seq 0 (Z.to_nat num))) ++ [stop]
                  = map f (seq 0 (Z.to_nat num))).
  { replace (Z.to_nat num) with (S (Z.to_nat (num - 1))) by lia.
    rewrite seq_S, map_app. cbn [map Nat.add]. rewrite removelast_last.
    f_equal. f_equal. unfold f.
    rewrite INR_IZR_INZ, Z2Nat.id by lia. field. exact Hn. }
  exact_arith.
  destruct (Rnonzero_spec ((stop - start) / IZR (num - 1))) as [_ | Hz];
    rewrite !map_map;
    rewrite (@map_ext _ _ _ f)
      by (intros i; unfold f; rewrite <- INR_IZR_INZ; field; exact Hn);
    exact Hlast.
Qed.

Lemma mirror_index_lt (n i : nat) : (0 < n)%nat -> (mirror_index n i < n)%nat.
Proof. intros Hn. apply Nat.mod_upper_bound. lia. Qed.

Lemma mirror_index_invol (n i : nat) :
  (i < n)%nat -> mirror_index n (mirror_index n i) = i.
Proof.
  intros Hi. unfold mirror_index.
  destruct (Nat.eq_dec i 0) as [-> | Hne].
  - rewrite Nat.sub_0_r, Nat.Div0.mod_same, Nat.sub_0_r.
    apply Nat.Div0.mod_same.
  - rewrite (Nat.mod_small (n - i)) by lia.
    replace (n - (n - i))%nat with i by lia. apply Nat.mod_small. exact Hi.
Qed.

Lemma mirror_index_perm (n : nat) :
  Permutation (map (mirror_index n) (seq 0 n)) (seq 0 n).
Proof.
  destruct (Nat.eq_dec n 0) as [-> | Hn]; [constructor |].
  apply Permutation_map_same_l.
  - apply NoDup_map_NoDup_ForallPairs; [| apply seq_NoDup].
    intros i j Hi Hj Heq. apply in_seq in Hi, Hj.
    rewrite <- (mirror_index_invol (n := n) (i := i)) by lia.
    rewrite Heq. apply mirror_index_invol. lia.
  - intros i Hi. apply in_map_iff in Hi. destruct Hi as [j [<- Hj]].
    apply in_seq. pose proof (@mirror_index_lt n j ltac:(lia)). lia.
Qed.

Lemma wave_from_source_mirror_y (x0 y0 X Y t : R) :
  Waves.wave_from_source (- x0) y0 (- X) Y t =
  Waves.wave_from_source x0 y0 X Y t.
Proof.
  unfold Waves.wave_from_source. rewrite !R_fpow_2. exact_arith.
  replace ((- X - - x0) * (- X - - x0)) with ((X - x0) * (X - x0)) by ring.
  reflexivity.
Qed.

Lemma mirror_index_y_lt (n i : nat) :
  (0 < n)%nat -> (mirror_index_y n i < n)%nat.
Proof. intros Hn. apply Nat.mod_upper_bound. lia. Qed.

(** For an even number of vertices. *)
Lemma mirror_index_y_value (h i : nat) :
  (i < 2 * h)%nat ->
  mirror_index_y (2 * h) i = (if i <=? h then h - i else 3 * h - i)%nat.
Proof.
  intros Hi. unfold mirror_index_y.
  replace (2 * h / 2)%nat with h
    by (rewrite Nat.mul_comm, Nat.div_mul by lia; reflexivity).
  destruct (Nat.leb_spec i h) as [Hle | Hgt].
  - replace (h + 2 * h - i)%nat with (h - i + 1 * (2 * h))%nat by lia.
    rewrite Nat.Div0.mod_add. apply Nat.mod_small. lia.
  - replace (h + 2 * h - i)%nat with (3 * h - i)%nat by lia.
    apply Nat.mod_small. lia.
Qed.

Lemma mirror_index_y_invol (h i : nat) :
  (i < 2 * h)%nat -> mirror_index_y (2 * h) (mirror_index_y (2 * h) i) = i.
Proof.
  intros Hi. rewrite (mirror_index_y_value h (i := i)) by exact Hi.
  destruct (Nat.leb_spec i h) as [Hle | Hgt];
    rewrite mirror_index_y_value by lia.
  - destruct (Nat.leb_spec (h - i) h); lia.
  - destruct (Nat.leb_spec (3 * h - i) h); lia.
Qed.

Lemma mirror_index_y_perm (h : nat) :
  Permutation (map (mirror_index_y (2 * h)) (seq 0 (2 * h))) (seq 0 (2 * h)).
Proof.
  destruct (Nat.eq_dec h 0) as [-> | Hh]; [constructor |].
  apply Permutation_map_same_l.
  - apply NoDup_map_NoDup_ForallPairs; [| apply seq_NoDup].
    intros i j Hi Hj Heq. apply in_seq in Hi, Hj.
    rewrite <- (mirror_index_y_invol h (i := i)) by lia.
    rewrite Heq. apply mirror_index_y_invol. lia.
  - intros i Hi. apply in_map_iff in Hi. destruct Hi as [j [<- Hj]].
    apply in_seq. pose proof (@mirror_index_y_lt (2 * h) j ltac:(lia)). lia.
Qed.

Section Polygon.
Variables (n : Z) (radius : R).
Hypothesis Hn : (0 < n)%Z.

(** The mirror image of a vertex in the x axis is a vertex. *)
Lemma vertex_mirror (i : nat) :
  (i < Z.to_nat n)%nat ->
  vertex n radius (mirror_index (Z.to_nat n) i)
  = (fst (vertex n radius i), - snd (vertex n radius i)).
Proof.
  intros Hi. unfold vertex, mirror_index. cbn [fst snd].
  assert (Hn0 : IZR n <> 0) by (apply not_0_IZR; lia).
  assert (HINR : INR (Z.to_nat n) = IZR n)
    by (rewrite INR_IZR_INZ, Z2Nat.id by lia; reflexivity).
  set (d := 2 * PI / IZR n).
  assert (Hang : exists k : Z,
            INR ((Z.to_nat n - i) mod Z.to_nat n) * d
            = - (INR i * d) + IZR k * (2 * PI)).
  { destruct (Nat.eq_dec i 0) as [-> | Hne].
    - exists 0%Z. rewrite Nat.sub_0_r, Nat.Div0.mod_same. cbn [INR]. ring.
    - exists 1%Z. rewrite Nat.mod_small by lia.
      rewrite minus_INR by lia. rewrite HINR. unfold d. field. exact Hn0. }
  destruct Hang as [k ->].
  rewrite cos_turns, sin_turns, cos_neg, sin_neg. f_equal. ring.
Qed.

(** With an even number of vertices, the mirror image of a vertex in the y
    axis is a vertex. *)
Lemma vertex_mirror_y (h i : nat) :
  Z.to_nat n = (2 * h)%nat -> (i < Z.to_nat n)%nat ->
  vertex n radius (mirror_index_y (Z.to_nat n) i)
  = (- fst (vertex n radius i), snd (vertex n radius i)).
Proof.
  intros Hh Hi. rewrite Hh in *. rewrite mirror_index_y_value by exact Hi.
  unfold vertex. cbn [fst snd].
  assert (Hn0 : IZR n <> 0) by (apply not_0_IZR; lia).
  assert (HINR : IZR n = 2 * INR h).
  { rewrite <- (Z2Nat.id n) by lia. rewrite <- INR_IZR_INZ, Hh, mult_INR.
    reflexivity. }
  set (d := 2 * PI / IZR n).
  assert (Hd : INR h * d = PI).
  { unfold d. rewrite HINR. rewrite HINR in Hn0. field. lra. }
  assert (Hang : exists k : Z,
            INR (if (i <=? h)%nat then h - i else 3 * h - i) * d
            = PI - INR i * d + IZR k * (2 * PI)).
  { destruct (Nat.leb_spec i h) as [Hle | Hgt].
    - exists 0%Z. rewrite minus_INR by exact Hle.
      rewrite Rmult_minus_distr_r, Hd. ring.
    - exists 1%Z. rewrite minus_INR by lia. rewrite mult_INR.
      rewrite Rmult_minus_distr_r.
      replace (INR 3 * INR h * d) with (3 * (INR h * d))
        by (rewrite (INR_IZR_INZ 3); cbn [Z.of_nat Pos.of_succ_nat Pos.succ];
            ring).
      rewrite Hd. ring. }
  destruct Hang as [k ->].
  rewrite cos_turns, sin_turns.
  rewrite Rtrigo_facts.cos_pi_minus, sin_PI_x. f_equal. ring.
Qed.

(** The symmetries of the sum over the sources: a reflection of the plane
    that permutes the sources and changes no distance to them changes no
    value. *)
Lemma total_wave_at_symmetry (sigma : nat -> nat) (X Y X' Y' : R) :
  Permutation (map sigma (seq 0 (Z.to_nat n))) (seq 0 (Z.to_nat n)) ->
  (forall i, (i < Z.to_nat n)%nat ->
     Waves.wave_from_source (fst (vertex n radius (sigma i)))
       (snd (vertex n radius (sigma i))) X' Y' Waves.t
     = Waves.wave_from_source (fst (vertex n radius i))
         (snd (vertex n radius i)) X Y Waves.t) ->
  Waves.total_wave_at (map (vertex n radius) (seq 0 (Z.to_nat n))) X' Y' =
  Waves.total_wave_at (map (vertex n radius) (seq 0 (Z.to_nat n))) X Y.
Proof.
  intros Hperm Hw. rewrite !total_wave_at_sum, !map_map.
  rewrite <- (Rlist_sum_perm
                (Permutation_map
                   (fun i => Waves.wave_from_source (fst (vertex n radius i))
                               (snd (vertex n radius i)) X' Y' Waves.t)
                   Hperm)).
  rewrite map_map. f_equal. apply map_ext_in. intros i Hi.
  apply in_seq in Hi. apply Hw. lia.
Qed.

Lemma total_wave_at_mirror (X Y : R) :
  Waves.total_wave_at (map (vertex n radius) (seq 0 (Z.to_nat n))) X (- Y) =
  Waves.total_wave_at (map (vertex n radius) (seq 0 (Z.to_nat n))) X Y.
Proof.
  apply total_wave_at_symmetry with (sigma := mirror_index (Z.to_nat n)).
  - apply mirror_index_perm.
  - intros i Hi. rewrite vertex_mirror by exact Hi. cbn [fst snd].
    apply wave_from_source_mirror.
Qed.

Lemma total_wave_at_mirror_y (h : nat) (X Y : R) :
  Z.to_nat n = (2 * h)%nat ->
  Waves.total_wave_at (map (vertex n radius) (seq 0 (Z.to_nat n))) (- X) Y =
  Waves.total_wave_at (map (vertex n radius) (seq 0 (Z.to_nat n))) X Y.
Proof.
  intros Hh.
  apply total_wave_at_symmetry with (sigma := mirror_index_y (Z.to_nat n)).
  - rewrite Hh. apply mirror_index_y_perm.
  - intros i Hi. rewrite (vertex_mirror_y h Hh Hi).
    cbn [fst snd]. apply wave_from_source_mirror_y.
Qed.

End Polygon.

(** X27.  In exact arithmetic the interference pattern of the script is
    symmetric under the reflections in the x axis and in the y axis: the
    rows [i] and [299 - i] of [total_wave] are equal, and so are the columns
    [j] and [299 - j]. *)
Theorem interference_pattern_symmetric :
  returns (Waves.total_wave (F := R))
    (fun rows =>
       forall i j, (i < 300)%nat -> (j < 300)%nat ->
         nth j (nth (299 - i) rows []) 0 = nth j (nth i rows []) 0 /\
         nth (299 - j) (nth i rows []) 0 = nth j (nth i rows []) 0).
Proof.
  unfold Waves.total_wave, Waves.x_range, Waves.y_range, Waves.sources,
    Waves.N_sources.
  rewrite R_linspace_closed by lia. cbn [bind].
  rewrite R_polygon_vertices by lia. cbn [bind returns].
  change (fun i : nat => (of_int 5 * cos (INR i * (2 * PI / 80)),
                          of_int 5 * sin (INR i * (2 * PI / 80))))
    with (vertex 80 (of_int 5)).
  set (srcs := map (vertex 80 (of_int 5)) (seq 0 (Z.to_nat 80))).
  set (grid := fun i : nat => of_int (-10) + INR i * (of_int 10 - of_int (-10)) / IZR (300 - 1)).
  intros i j Hi Hj.
  change (Z.to_nat 300) with 300%nat.
  assert (Hrow : forall a, (a < 300)%nat ->
            nth a (map (fun Y => map (fun X => Waves.total_wave_at srcs X Y)
                                     (map grid (seq 0 300)))
                       (map grid (seq 0 300))) []
            = map (fun X => Waves.total_wave_at srcs X (grid a))
                  (map grid (seq 0 300))).
  { intros a Ha. rewrite map_map. rewrite nth_map_seq by exact Ha.
    reflexivity. }
  assert (Hgrid : forall a, (a < 300)%nat -> grid (299 - a)%nat = - grid a).
  { intros a Ha. unfold grid. exact_arith. rewrite minus_INR by lia.
    rewrite (INR_IZR_INZ 299). change (Z.of_nat 299) with 299%Z.
    change (300 - 1)%Z with 299%Z. field. }
  rewrite !Hrow by lia. rewrite !map_map, !nth_map_seq by lia.
  rewrite !Hgrid by assumption. split.
  - apply (total_wave_at_mirror (n := 80)). lia.
  - apply (@total_wave_at_mirror_y 80 (of_int 5) ltac:(lia) 40%nat).
    reflexivity.
Qed.

End ExactWaves3.
